(** * Snake-lite: the tick-driven state machine of [SnakeGame]

    A shallow embedding of the TypeScript class [SnakeGame]: the class
    fields, the part of the browser it talks to (canvas size, the
    [localStorage] entry, the timer table, [Math.random], the DOM texts and
    [alert]) and its methods, followed by the properties of the tick, of the
    direction buffer, of the difficulty schedule, of the high score and of
    the timer loop. *)

From Stdlib Require Import ZArith QArith Qround Qpower List String Bool Lia Lqa.
Import ListNotations.
Open Scope Z_scope.

(** ** Data model *)

(** [interface Point]: a grid cell.  Every coordinate the game computes is
    an integer, so the [number] fields are integers here. *)
Record Point : Type := mkPoint { x : Z; y : Z }.

(** The four values ever stored in the [direction] and [nextDirection]
    strings: ['up'], ['down'], ['left'], ['right']. *)
Inductive Direction : Type := Up | Down | Left | Right.

Definition Direction_eqb (a b : Direction) : bool :=
  match a, b with
  | Up, Up | Down, Down | Left, Left | Right, Right => true
  | _, _ => false
  end.

(** The reversal of a direction. *)
Definition opposite (d : Direction) : Direction :=
  match d with Up => Down | Down => Up | Left => Right | Right => Left end.

(** [const CONFIG]. *)
Module CONFIG.
Definition gridSize : Z := 20.
Definition initialSpeed : Z := 200.
Definition minSpeed : Z := 50.
Definition speedDecrement : Z := 5.
End CONFIG.

(** What the game does to the outside, newest first: the two DOM texts, the
    blocking [alert] and the canvas picture painted by [draw]. *)
Inductive Event : Type :=
| ScoreText (n : Z)
| HighScoreText (n : Z)
| Alert (score highScore : Z)
| Draw (snake : list Point) (apple : Point).

(** The fields of [SnakeGame] together with the browser state they depend
    on.  [localStorage] is the entry ['snakeHighScore']: its only writer
    stores [highScore.toString()] and its only reader is [parseInt(_, 10)],
    so the entry is kept as the integer it spells, [None] when absent.
    [timers] is the table of pending [setTimeout] calls, handle and delay
    (the callback is always [gameLoop]); handles are positive and never
    reused.  [random] is the sequence of values [Math.random()] is going to
    return. *)
#[projections(primitive)]
Record World : Type := mkWorld {
  canvasWidth : Z;
  canvasHeight : Z;
  snake : list Point;
  apple : Point;
  direction : Direction;
  nextDirection : Direction;
  score : Z;
  highScore : Z;
  speed : Z;
  gameLoopTimeout : option nat;
  isPaused : bool;
  localStorage : option Z;
  timers : list (nat * Z);
  nextHandle : nat;
  random : list Q;
  log : list Event
}.

(** Field assignments. *)
Definition set_snake (v : list Point) (w : World) : World :=
  mkWorld (canvasWidth w) (canvasHeight w) v (apple w) (direction w)
    (nextDirection w) (score w) (highScore w) (speed w) (gameLoopTimeout w)
    (isPaused w) (localStorage w) (timers w) (nextHandle w) (random w) (log w).

Definition set_apple (v : Point) (w : World) : World :=
  mkWorld (canvasWidth w) (canvasHeight w) (snake w) v (direction w)
    (nextDirection w) (score w) (highScore w) (speed w) (gameLoopTimeout w)
    (isPaused w) (localStorage w) (timers w) (nextHandle w) (random w) (log w).

Definition set_direction (v : Direction) (w : World) : World :=
  mkWorld (canvasWidth w) (canvasHeight w) (snake w) (apple w) v
    (nextDirection w) (score w) (highScore w) (speed w) (gameLoopTimeout w)
    (isPaused w) (localStorage w) (timers w) (nextHandle w) (random w) (log w).

Definition set_nextDirection (v : Direction) (w : World) : World :=
  mkWorld (canvasWidth w) (canvasHeight w) (snake w) (apple w) (direction w) v
    (score w) (highScore w) (speed w) (gameLoopTimeout w) (isPaused w)
    (localStorage w) (timers w) (nextHandle w) (random w) (log w).

Definition set_score (v : Z) (w : World) : World :=
  mkWorld (canvasWidth w) (canvasHeight w) (snake w) (apple w) (direction w)
    (nextDirection w) v (highScore w) (speed w) (gameLoopTimeout w) (isPaused
    w) (localStorage w) (timers w) (nextHandle w) (random w) (log w).

Definition set_highScore (v : Z) (w : World) : World :=
  mkWorld (canvasWidth w) (canvasHeight w) (snake w) (apple w) (direction w)
    (nextDirection w) (score w) v (speed w) (gameLoopTimeout w) (isPaused w)
    (localStorage w) (timers w) (nextHandle w) (random w) (log w).

Definition set_speed (v : Z) (w : World) : World :=
  mkWorld (canvasWidth w) (canvasHeight w) (snake w) (apple w) (direction w)
    (nextDirection w) (score w) (highScore w) v (gameLoopTimeout w) (isPaused
    w) (localStorage w) (timers w) (nextHandle w) (random w) (log w).

Definition set_gameLoopTimeout (v : option nat) (w : World) : World :=
  mkWorld (canvasWidth w) (canvasHeight w) (snake w) (apple w) (direction w)
    (nextDirection w) (score w) (highScore w) (speed w) v (isPaused w)
    (localStorage w) (timers w) (nextHandle w) (random w) (log w).

Definition set_isPaused (v : bool) (w : World) : World :=
  mkWorld (canvasWidth w) (canvasHeight w) (snake w) (apple w) (direction w)
    (nextDirection w) (score w) (highScore w) (speed w) (gameLoopTimeout w) v
    (localStorage w) (timers w) (nextHandle w) (random w) (log w).

Definition set_localStorage (v : option Z) (w : World) : World :=
  mkWorld (canvasWidth w) (canvasHeight w) (snake w) (apple w) (direction w)
    (nextDirection w) (score w) (highScore w) (speed w) (gameLoopTimeout w)
    (isPaused w) v (timers w) (nextHandle w) (random w) (log w).

Definition set_timers (v : list (nat * Z)) (w : World) : World :=
  mkWorld (canvasWidth w) (canvasHeight w) (snake w) (apple w) (direction w)
    (nextDirection w) (score w) (highScore w) (speed w) (gameLoopTimeout w)
    (isPaused w) (localStorage w) v (nextHandle w) (random w) (log w).

Definition set_nextHandle (v : nat) (w : World) : World :=
  mkWorld (canvasWidth w) (canvasHeight w) (snake w) (apple w) (direction w)
    (nextDirection w) (score w) (highScore w) (speed w) (gameLoopTimeout w)
    (isPaused w) (localStorage w) (timers w) v (random w) (log w).

Definition set_random (v : list Q) (w : World) : World :=
  mkWorld (canvasWidth w) (canvasHeight w) (snake w) (apple w) (direction w)
    (nextDirection w) (score w) (highScore w) (speed w) (gameLoopTimeout w)
    (isPaused w) (localStorage w) (timers w) (nextHandle w) v (log w).

Definition set_log (v : list Event) (w : World) : World :=
  mkWorld (canvasWidth w) (canvasHeight w) (snake w) (apple w) (direction w)
    (nextDirection w) (score w) (highScore w) (speed w) (gameLoopTimeout w)
    (isPaused w) (localStorage w) (timers w) (nextHandle w) (random w) v.

(** ** Outcomes

    A method either returns, or reads the head of an empty snake
    ([this.snake[0]] is [undefined] and the coordinates stop being numbers,
    which the integer model does not follow), or is still running when the
    supply of random draws or the allowed nesting depth is used up. *)
Inductive result (A : Type) : Type :=
| Ok (a : A)
| NoHead
| Unfinished.
Arguments Ok {A} a.
Arguments NoHead {A}.
Arguments Unfinished {A}.

Definition bind {A B : Type} (r : result A) (k : A -> result B) : result B :=
  match r with
  | Ok a => k a
  | NoHead => NoHead
  | Unfinished => Unfinished
  end.

Notation "v <- r ;; k" := (bind r (fun v => k))
  (at level 61, r at next level, right associativity).

(** ** Browser primitives *)

(** [setTimeout(() => this.gameLoop(), delay)]: a fresh handle. *)
Definition setTimeout (delay : Z) (w : World) : nat * World :=
  let h := nextHandle w in
  (h, set_nextHandle (S h) (set_timers (timers w ++ [(h, delay)]) w)).

(** [clearTimeout(h)]: the entry with handle [h], if still pending, goes. *)
Definition clearTimeout (h : nat) (w : World) : World :=
  set_timers (filter (fun t => negb (Nat.eqb (fst t) h)) (timers w)) w.

Definition emit (e : Event) (w : World) : World := set_log (e :: log w) w.

(** [alert(`Game Over! Score: ${this.score}\nHigh Score: ${this.highScore}`)] *)
Definition alert (w : World) : World := emit (Alert (score w) (highScore w)) w.

(** [canvas.width / CONFIG.gridSize] and [canvas.height / CONFIG.gridSize]:
    a true division, not rounded. *)
Definition columns (w : World) : Q := inject_Z (canvasWidth w) / inject_Z CONFIG.gridSize.
Definition rows (w : World) : Q := inject_Z (canvasHeight w) / inject_Z CONFIG.gridSize.

(** ** Numbers

    A JavaScript [number] is an IEEE 754 double.  The coordinates, the
    score, the speed and the canvas size are integers far below 2^53, on
    which the arithmetic and the comparisons of the game are exact; the one
    place where rounding decides a result is the cell drawn in [placeApple],
    [Math.floor(Math.random() * (canvas.width / CONFIG.gridSize))], where
    the quotient and the product are each rounded to the nearest double.
    Doubles are the rationals [m * 2^e] with [|m| <= 2^53] and
    [e >= -1074]; the values here stay far below 2^1024, so no result is
    infinite. *)

Definition pow2 (e : Z) : Q := (2 ^ e)%Q.

(** The nearest integer, the even one of two equally near. *)
Definition rint (q : Q) : Z :=
  let f := Qfloor q in
  match Qcompare (q - inject_Z f) (1 # 2) with
  | Lt => f
  | Gt => f + 1
  | Eq => if Z.even f then f else f + 1
  end.

(** The exponent of the unit in the last place of a positive number:
    [2^E <= q < 2^(E+1)] gives [E - 52], and not less than -1074. *)
Definition exponent (q : Q) : Z :=
  let l := Z.log2 (Qnum q) - Z.log2 (Zpos (Qden q)) in
  let E := if Qle_bool (pow2 l) q then l else l - 1 in
  Z.max (E - 52) (-1074).

Definition binary64_pos (q : Q) : Q :=
  (inject_Z (rint (q / pow2 (exponent q))) * pow2 (exponent q))%Q.

(** Rounding to the nearest double, ties to even. *)
Definition binary64 (q : Q) : Q :=
  match Qcompare q 0 with
  | Gt => binary64_pos q
  | Lt => (- binary64_pos (- q))%Q
  | Eq => 0%Q
  end.

(** [Math.floor(r * size)] for a double [r] and the quotient [size] of two
    integers. *)
Definition cell (r size : Q) : Z := Qfloor (binary64 (r * binary64 size)).

(** ** Methods of [SnakeGame] *)

Definition updateScoreDisplay (w : World) : World := emit (ScoreText (score w)) w.

Definition updateHighScoreDisplay (w : World) : World :=
  emit (HighScoreText (highScore w)) w.

(** The listener installed by [initInput], run on one [keydown] event whose
    [e.key] is [key]. *)
Definition keydown (key : string) (w : World) : World :=
  if (key =? "ArrowUp")%string then
    if Direction_eqb (direction w) Down then w else set_nextDirection Up w
  else if (key =? "ArrowDown")%string then
    if Direction_eqb (direction w) Up then w else set_nextDirection Down w
  else if (key =? "ArrowLeft")%string then
    if Direction_eqb (direction w) Right then w else set_nextDirection Left w
  else if (key =? "ArrowRight")%string then
    if Direction_eqb (direction w) Left then w else set_nextDirection Right w
  else w.

(** [this.snake.some(segment => segment.x === head.x && segment.y === head.y)] *)
Definition checkSelfCollision (head : Point) (w : World) : bool :=
  existsb (fun segment => (x segment =? x head) && (y segment =? y head)) (snake w).

(** The [while] loop of [placeApple] over the draws still to come: two draws
    per round, the first for [x], the second for [y], each turned into a
    cell in double arithmetic. *)
Fixpoint placeApple_loop (body : list Point) (draws : list Q)
  (cols rws : Q) : result (Point * list Q) :=
  match draws with
  | r1 :: r2 :: rest =>
      let cx := cell r1 cols in
      let cy := cell r2 rws in
      let onSnake :=
        existsb (fun segment => (x segment =? cx) && (y segment =? cy)) body in
      if negb onSnake then Ok (mkPoint cx cy, rest)
      else placeApple_loop body rest cols rws
  | _ => Unfinished
  end.

Definition placeApple (w : World) : result World :=
  pr <- placeApple_loop (snake w) (random w) (columns w) (rows w) ;;
  Ok (set_random (snd pr) (set_apple (fst pr) w)).

Definition increaseDifficulty (w : World) : World :=
  if speed w >? CONFIG.minSpeed
  then set_speed (speed w - CONFIG.speedDecrement) w
  else w.

(** The [switch (this.direction)] of [update] applied to a copy of the head. *)
Definition step (d : Direction) (head : Point) : Point :=
  match d with
  | Up => mkPoint (x head) (y head - 1)
  | Down => mkPoint (x head) (y head + 1)
  | Left => mkPoint (x head - 1) (y head)
  | Right => mkPoint (x head + 1) (y head)
  end.

(** The condition of the collision [if] of [update]. *)
Definition collision (head : Point) (w : World) : bool :=
  (x head <? 0)
  || Qle_bool (columns w) (inject_Z (x head))
  || (y head <? 0)
  || Qle_bool (rows w) (inject_Z (y head))
  || checkSelfCollision head w.

(** [gameLoop], [update], [handleGameOver] and [resetGame] call one another:
    [gameLoop] runs [update], which on a collision runs [handleGameOver],
    which runs [resetGame], which runs [gameLoop] again before returning.
    The three inner methods take the nested [gameLoop] as [loop]; the knot
    is tied in [gameLoop] below. *)
Section Methods.
Variable loop : World -> result World.

Definition resetGame_with (w : World) : result World :=
  let w := set_snake [mkPoint 3 1] w in
  let w := set_direction Right w in
  let w := set_nextDirection Right w in
  let w := set_score 0 w in
  let w := set_speed CONFIG.initialSpeed w in
  let w := updateScoreDisplay w in
  w <- placeApple w ;;
  let w := set_isPaused false w in
  let w :=
    match gameLoopTimeout w with
    | Some (S h) => clearTimeout (S h) w
    | _ => w
    end in
  loop w.

Definition handleGameOver_with (w : World) : result World :=
  let w :=
    if score w >? highScore w then
      let w := set_highScore (score w) w in
      let w := set_localStorage (Some (highScore w)) w in
      updateHighScoreDisplay w
    else w in
  let w := alert w in
  resetGame_with w.

Definition update_with (w : World) : result World :=
  let w := set_direction (nextDirection w) w in
  match snake w with
  | [] => NoHead
  | s0 :: _ =>
      let head := step (direction w) s0 in
      if collision head w then handleGameOver_with w
      else
        let w := set_snake (head :: snake w) w in
        if (x head =? x (apple w)) && (y head =? y (apple w)) then
          let w := set_score (score w + 1) w in
          let w := updateScoreDisplay w in
          w <- placeApple w ;;
          Ok (increaseDifficulty w)
        else
          Ok (set_snake (removelast (snake w)) w)
  end.
End Methods.

Definition draw (w : World) : World := emit (Draw (snake w) (apple w)) w.

(** [this.gameLoopTimeout = setTimeout(() => this.gameLoop(), this.speed)] *)
Definition rearm (w : World) : World :=
  let (h, w) := setTimeout (speed w) w in
  set_gameLoopTimeout (Some h) w.

(** [gameLoop] with at most [depth] activations of it on the call stack. *)
Fixpoint gameLoop (depth : nat) (w : World) : result World :=
  match depth with
  | O => Unfinished
  | S d =>
      w <- update_with (gameLoop d) w ;;
      let w := draw w in
      Ok (rearm w)
  end.

(** The methods as [gameLoop] at depth [S depth] runs them. *)
Definition update (depth : nat) : World -> result World :=
  update_with (gameLoop depth).
Definition handleGameOver (depth : nat) : World -> result World :=
  handleGameOver_with (gameLoop depth).
Definition resetGame (depth : nat) : World -> result World :=
  resetGame_with (gameLoop depth).

(** The fields as the constructor assigns them before it calls a method, in
    a browser with the given canvas, stored high score and random draws, and
    no timer pending.
    [parseInt(localStorage.getItem('snakeHighScore') || '0', 10)] is the
    stored integer, 0 when the entry is absent. *)
Definition blank (width height : Z) (stored : option Z) (draws : list Q) : World :=
  {| canvasWidth := width; canvasHeight := height;
     snake := []; apple := mkPoint 0 0;
     direction := Right; nextDirection := Right;
     score := 0;
     highScore := match stored with Some n => n | None => 0 end;
     speed := CONFIG.initialSpeed;
     gameLoopTimeout := None; isPaused := false;
     localStorage := stored; timers := []; nextHandle := 1%nat;
     random := draws; log := [] |}.

(** [new SnakeGame('gameCanvas', 'score')]; [initInput] only installs
    [keydown] as the listener. *)
Definition constructor (width height : Z) (stored : option Z)
  (draws : list Q) (depth : nat) : result World :=
  let w := blank width height stored draws in
  let w := updateHighScoreDisplay w in
  resetGame depth w.

(** The browser runs the callback of the pending timer [h]: the entry leaves
    the table and [gameLoop] runs.  Nothing happens for a handle that is not
    pending. *)
Definition pending (h : nat) (w : World) : bool :=
  existsb (fun t => Nat.eqb (fst t) h) (timers w).

Definition timeout (h : nat) (depth : nat) (w : World) : result World :=
  if pending h w then gameLoop depth (clearTimeout h w) else Ok w.

(** The states the page can be in: built by the constructor, then any
    sequence of key presses and timer callbacks. *)
Inductive reachable : World -> Prop :=
| reach_new : forall width height stored draws depth w,
    constructor width height stored draws depth = Ok w -> reachable w
| reach_keydown : forall key w,
    reachable w -> reachable (keydown key w)
| reach_timeout : forall h depth w w',
    reachable w -> timeout h depth w = Ok w' -> reachable w'.

(** ** Vocabulary of the properties *)

(** The first statement of [update]: the buffered direction is committed. *)
Definition commit (w : World) : World := set_direction (nextDirection w) w.

(** The cell the head is about to enter on the next tick: the current head
    moved one cell in the direction that tick commits. *)
Definition prospective (w : World) : option Point :=
  match snake w with
  | [] => None
  | s0 :: _ => Some (step (nextDirection w) s0)
  end.

(** The direction a key asks for. *)
Definition request (key : string) : option Direction :=
  if (key =? "ArrowUp")%string then Some Up
  else if (key =? "ArrowDown")%string then Some Down
  else if (key =? "ArrowLeft")%string then Some Left
  else if (key =? "ArrowRight")%string then Some Right
  else None.

Definition requests (keys : list string) : list Direction :=
  flat_map (fun key => match request key with Some d => [d] | None => [] end) keys.

(** A request is legal when it does not reverse the committed direction. *)
Definition legal (committed d : Direction) : bool :=
  negb (Direction_eqb committed (opposite d)).

(** Key presses delivered one after the other, with no tick in between. *)
Definition keydowns (keys : list string) (w : World) : World :=
  fold_left (fun w key => keydown key w) keys w.

(** The invariants of the running game. *)
Definition body_ok (w : World) : Prop := snake w <> [] /\ NoDup (snake w).

Definition apple_free (w : World) : Prop := ~ In (apple w) (snake w).

Definition buffer_ok (w : World) : Prop :=
  nextDirection w <> opposite (direction w).

Definition speed_ok (w : World) : Prop :=
  CONFIG.minSpeed <= speed w <= CONFIG.initialSpeed
  /\ (speed w - CONFIG.minSpeed) mod CONFIG.speedDecrement = 0.

Definition store_ok (w : World) : Prop :=
  localStorage w = Some (highScore w)
  \/ (localStorage w = None /\ highScore w = 0).

(** What [resetGame] leaves for the nested [gameLoop], from the state [w]
    it was called in. *)
Record fresh_session (w w1 : World) : Prop := {
  fresh_snake : snake w1 = [mkPoint 3 1];
  fresh_apple : ~ In (apple w1) (snake w1);
  fresh_direction : direction w1 = Right;
  fresh_nextDirection : nextDirection w1 = Right;
  fresh_score : score w1 = 0;
  fresh_speed : speed w1 = CONFIG.initialSpeed;
  fresh_highScore : highScore w1 = highScore w;
  fresh_localStorage : localStorage w1 = localStorage w;
  fresh_log : log w1 = ScoreText 0 :: log w;
  fresh_nextHandle : nextHandle w1 = nextHandle w;
  fresh_timers : incl (timers w1) (timers w)
}.

(** The high-score step of [handleGameOver], up to the [alert]. *)
Definition recorded (w : World) : World :=
  alert
    (if score w >? highScore w
     then updateHighScoreDisplay
            (set_localStorage (Some (score w)) (set_highScore (score w) w))
     else w).

(** ** Sample executions *)

(** The state a method returned, [otherwise] when it did not return. *)
Definition returned (r : result World) (otherwise : World) : World :=
  match r with Ok w => w | _ => otherwise end.

(** A page with a 20 x 20 board and nothing stored; [Math.random] yields
    0.5, 0.5 (first apple at (10, 10)), then 0.25, 0.75.  The constructor
    has run: one tick done, one timer pending. *)
Definition started : World :=
  {| canvasWidth := 400; canvasHeight := 400;
     snake := [mkPoint 4 1]; apple := mkPoint 10 10;
     direction := Right; nextDirection := Right;
     score := 0; highScore := 0; speed := 200;
     gameLoopTimeout := Some 1%nat; isPaused := false;
     localStorage := None; timers := [(1%nat, 200)]; nextHandle := 2%nat;
     random := [1#4; 3#4];
     log := [Draw [mkPoint 4 1] (mkPoint 10 10); ScoreText 0; HighScoreText 0] |}.

(** The player presses the up arrow; the timer fires twice.  The second
    tick takes the head from (4, 0) to (4, -1), off the board. *)
Definition turned : World := keydown "ArrowUp" started.
Definition climbed : World :=
  Eval vm_compute in returned (timeout 1 1 turned) turned.
Definition crashed : World :=
  Eval vm_compute in returned (timeout 2 2 climbed) climbed.

(** A snake of four cells coiled in a square, head at (1, 1), tail at
    (2, 1), about to turn right into its own tail; score 7 against a stored
    high score of 5. *)
Definition coiled : World :=
  {| canvasWidth := 400; canvasHeight := 400;
     snake := [mkPoint 1 1; mkPoint 1 2; mkPoint 2 2; mkPoint 2 1];
     apple := mkPoint 10 10;
     direction := Up; nextDirection := Right;
     score := 7; highScore := 5; speed := 165;
     gameLoopTimeout := Some 9%nat; isPaused := false;
     localStorage := Some 5; timers := []; nextHandle := 10%nat;
     random := [1#4; 3#4]; log := [] |}.

(** A one-cell snake at (4, 1) heading right with the apple on (5, 1). *)
Definition feeding : World :=
  {| canvasWidth := 400; canvasHeight := 400;
     snake := [mkPoint 4 1]; apple := mkPoint 5 1;
     direction := Right; nextDirection := Right;
     score := 0; highScore := 0; speed := 200;
     gameLoopTimeout := Some 1%nat; isPaused := false;
     localStorage := None; timers := []; nextHandle := 2%nat;
     random := [1#4; 1#20; 1#2; 1#2]; log := [] |}.

(** The coiled snake turns into its tail with score 7 against a stored 5:
    the state [handleGameOver] hands to the new session, and that session
    after its first tick. *)
Definition ended : World :=
  Eval vm_compute in returned (handleGameOver_with Ok (commit coiled)) coiled.
Definition restarted : World :=
  Eval vm_compute in returned (gameLoop 1 ended) ended.

(** A page whose first apple is drawn at (5, 1), right in front of the
    snake; the first timer callback eats it and the next apple is drawn at
    (10, 10). *)
Definition hungry : World :=
  Eval vm_compute in
    returned (constructor 400 400 None [1#4; 1#20; 1#2; 1#2] 1) started.
Definition grown : World :=
  Eval vm_compute in returned (timeout 1 1 hungry) hungry.

(** A session about to start with the apple drawn at (4, 1), right in
    front of the snake: what [resetGame] hands to the first tick. *)
Definition first_bite : World :=
  Eval vm_compute in
    returned (resetGame_with Ok (set_random [1#5; 1#16; 1#2; 1#2] coiled)) coiled.

(** The double nearest to 0.95. *)
Definition nearest_095 : Q := 8556839292003942 # 9007199254740992.

(** ** Further vocabulary *)

(** A cell of the board: [0 <= x < canvas.width / gridSize] and the same
    for [y], the divisions cleared. *)
Definition on_board (w : World) (p : Point) : Prop :=
  0 <= x p /\ x p * CONFIG.gridSize < canvasWidth w
  /\ 0 <= y p /\ y p * CONFIG.gridSize < canvasHeight w.

(** The state [resetGame] leaves for the first tick of a session, as far as
    that tick reads it. *)
Definition at_start (w : World) : Prop :=
  snake w = [mkPoint 3 1] /\ nextDirection w = Right.

(** Two cells side by side, horizontally or vertically. *)
Definition adjacent (a b : Point) : Prop :=
  Z.abs (x a - x b) + Z.abs (y a - y b) = 1.

(** Every cell of the list is adjacent to the next one. *)
Fixpoint connected (body : list Point) : Prop :=
  match body with
  | a :: (b :: _) as rest => adjacent a b /\ connected rest
  | _ => True
  end.

(** The second cell of the snake lies behind the head, against the
    committed direction. *)
Definition neck_ok (w : World) : Prop :=
  forall h n rest, snake w = h :: n :: rest -> h = step (direction w) n.

(** The text of the score element, of the high-score element, and the last
    picture on the canvas, read off the log. *)
Fixpoint shownScore (l : list Event) : option Z :=
  match l with
  | [] => None
  | ScoreText n :: _ => Some n
  | _ :: l => shownScore l
  end.

Fixpoint shownHighScore (l : list Event) : option Z :=
  match l with
  | [] => None
  | HighScoreText n :: _ => Some n
  | _ :: l => shownHighScore l
  end.

Fixpoint painted (l : list Event) : option (list Point * Point) :=
  match l with
  | [] => None
  | Draw body fruit :: _ => Some (body, fruit)
  | _ :: l => painted l
  end.

(** The handles in the timer table are distinct and were all handed out
    already. *)
Definition handles_ok (w : World) : Prop :=
  NoDup (map fst (timers w))
  /\ Forall (fun t => (fst t < nextHandle w)%nat) (timers w).

(** What [Math.random()] promises: a double in [0, 1), so at most
    [1 - 2^-53]. *)
Definition unit_draw (r : Q) : Prop := (0 <= r /\ r <= 1 - pow2 (-53))%Q.

(** The doubles that are not negative. *)
Definition double_pos (d : Q) : Prop :=
  exists m e, 0 <= m <= 2 ^ 53 /\ -1074 <= e /\ (d == inject_Z m * pow2 e)%Q.

(** ** The first version of the game: [snake.js]

    The script keeps its state in global variables: the snake (its cells
    and its direction), the apple, the score.  The random values are a
    stream with the number of values taken so far; the timers set by
    [gameLoop] are never cancelled and their handles are thrown away, so
    the table is a count. *)
Module Legacy.

Inductive Event : Type :=
| ScoreText (n : Z)
| Alert (score : Z)
| Draw (cells : list Point) (position : Point).

#[projections(primitive)]
Record Game : Type := mkGame {
  canvasWidth : Z;
  canvasHeight : Z;
  cells : list Point;
  direction : Direction;
  position : Point;
  score : Z;
  random : nat -> Q;
  drawn : nat;
  pendingTimers : nat;
  log : list Event
}.

Definition set_cells (v : list Point) (g : Game) : Game :=
  mkGame (canvasWidth g) (canvasHeight g) v (direction g) (position g) (score
    g) (random g) (drawn g) (pendingTimers g) (log g).

Definition set_direction (v : Direction) (g : Game) : Game :=
  mkGame (canvasWidth g) (canvasHeight g) (cells g) v (position g) (score g)
    (random g) (drawn g) (pendingTimers g) (log g).

Definition set_position (v : Point) (g : Game) : Game :=
  mkGame (canvasWidth g) (canvasHeight g) (cells g) (direction g) v (score g)
    (random g) (drawn g) (pendingTimers g) (log g).

Definition set_score (v : Z) (g : Game) : Game :=
  mkGame (canvasWidth g) (canvasHeight g) (cells g) (direction g) (position g)
    v (random g) (drawn g) (pendingTimers g) (log g).

Definition set_drawn (v : nat) (g : Game) : Game :=
  mkGame (canvasWidth g) (canvasHeight g) (cells g) (direction g) (position g)
    (score g) (random g) v (pendingTimers g) (log g).

Definition set_pendingTimers (v : nat) (g : Game) : Game :=
  mkGame (canvasWidth g) (canvasHeight g) (cells g) (direction g) (position g)
    (score g) (random g) (drawn g) v (log g).

Definition set_log (v : list Event) (g : Game) : Game :=
  mkGame (canvasWidth g) (canvasHeight g) (cells g) (direction g) (position g)
    (score g) (random g) (drawn g) (pendingTimers g) v.


Definition gridSize : Z := 20.

Definition emit (e : Event) (g : Game) : Game := set_log (e :: log g) g.

Definition columns (g : Game) : Q := inject_Z (canvasWidth g) / inject_Z gridSize.
Definition rows (g : Game) : Q := inject_Z (canvasHeight g) / inject_Z gridSize.

(** [checkSelfCollision]: the head is [cells[0]], compared with the cells
    from index 1 on. *)
Definition checkSelfCollision (g : Game) : bool :=
  match cells g with
  | [] => false
  | head :: others =>
      existsb (fun c => (x head =? x c) && (y head =? y c)) others
  end.

Definition resetGame (g : Game) : Game :=
  let g := emit (Alert (score g)) g in
  let g := set_cells [mkPoint 3 1] g in
  let g := set_direction Right g in
  let g := set_score 0 g in
  emit (ScoreText (score g)) g.

(** [update]; reading [snake.cells[0].x] of an empty snake throws. *)
Definition update (g : Game) : result Game :=
  match cells g with
  | [] => NoHead
  | c0 :: _ =>
      let head := step (direction g) c0 in
      let g :=
        if (x head =? x (position g)) && (y head =? y (position g)) then
          let g := set_cells (head :: cells g) g in
          let g :=
            set_position
              (mkPoint (cell (random g (drawn g)) (columns g))
                       (cell (random g (S (drawn g))) (rows g))) g in
          let g := set_drawn (S (S (drawn g))) g in
          let g := set_score (score g + 1) g in
          emit (ScoreText (score g)) g
        else
          let g := set_cells (head :: cells g) g in
          set_cells (removelast (cells g)) g in
      if (x head <? 0)
         || Qle_bool (columns g) (inject_Z (x head))
         || (y head <? 0)
         || Qle_bool (rows g) (inject_Z (y head))
         || checkSelfCollision g
      then Ok (resetGame g)
      else Ok g
  end.

Definition draw (g : Game) : Game := emit (Draw (cells g) (position g)) g.

Definition handleKeyPress (key : string) (g : Game) : Game :=
  if (key =? "ArrowUp")%string then set_direction Up g
  else if (key =? "ArrowDown")%string then set_direction Down g
  else if (key =? "ArrowLeft")%string then set_direction Left g
  else if (key =? "ArrowRight")%string then set_direction Right g
  else g.

(** [gameLoop]: [update], [draw], then one more timer. *)
Definition gameLoop (g : Game) : result Game :=
  g <- update g ;;
  let g := draw g in
  Ok (set_pendingTimers (S (pendingTimers g)) g).

(** The browser runs the callback of a pending timer. *)
Definition timeout (g : Game) : result Game :=
  match pendingTimers g with
  | O => Ok g
  | S n => gameLoop (set_pendingTimers n g)
  end.

(** The globals as the script initialises them, and the script run to its
    last line, [gameLoop()]. *)
Definition initial (width height : Z) (draws : nat -> Q) : Game :=
  {| canvasWidth := width; canvasHeight := height;
     cells := [mkPoint 3 1]; direction := Right;
     position := mkPoint 10 5; score := 0;
     random := draws; drawn := 0%nat; pendingTimers := 0%nat; log := [] |}.

Definition load (width height : Z) (draws : nat -> Q) : result Game :=
  gameLoop (initial width height draws).

Inductive reachable : Game -> Prop :=
| reach_load : forall width height draws g,
    load width height draws = Ok g -> reachable g
| reach_keydown : forall key g,
    reachable g -> reachable (handleKeyPress key g)
| reach_timeout : forall g g',
    reachable g -> timeout g = Ok g' -> reachable g'.

Definition on_board (g : Game) (p : Point) : Prop :=
  0 <= x p /\ x p * gridSize < canvasWidth g
  /\ 0 <= y p /\ y p * gridSize < canvasHeight g.

(** A snake of four cells coiled in a square, head at (1, 1), tail at
    (2, 1), heading right into the cell its tail is leaving. *)
Definition square : Game :=
  {| canvasWidth := 400; canvasHeight := 400;
     cells := [mkPoint 1 1; mkPoint 1 2; mkPoint 2 2; mkPoint 2 1];
     direction := Right; position := mkPoint 10 5; score := 3;
     random := fun _ => 1#2; drawn := 6%nat; pendingTimers := 0%nat; log := [] |}.

(** A straight snake of three cells heading right. *)
Definition straight : Game :=
  {| canvasWidth := 400; canvasHeight := 400;
     cells := [mkPoint 6 1; mkPoint 5 1; mkPoint 4 1];
     direction := Right; position := mkPoint 10 5; score := 2;
     random := fun _ => 1#2; drawn := 4%nat; pendingTimers := 1%nat; log := [] |}.

End Legacy.

(** The state [snake.js] returned, the initial state of an empty page when
    it threw. *)
Definition returned_legacy (r : result Legacy.Game) : Legacy.Game :=
  match r with
  | Ok g => g
  | _ => Legacy.initial 0 0 (fun _ => 0%Q)
  end.

(** ** Basic facts *)

Lemma bind_Ok_inv {A B : Type} (r : result A) (k : A -> result B) (b : B) :
  bind r k = Ok b -> exists a, r = Ok a /\ k a = Ok b.
Proof.
  destruct r as [a| |]; simpl; intros H; try discriminate.
  exists a; split; [reflexivity | exact H].
Qed.

Lemma same_cell_eq (p q : Point) :
  (x p =? x q) && (y p =? y q) = true <-> p = q.
Proof.
  destruct p as [px py], q as [qx qy]; simpl.
  rewrite andb_true_iff, !Z.eqb_eq. split.
  - intros [-> ->]; reflexivity.
  - intros H; injection H; auto.
Qed.

Lemma on_body_In (head : Point) (body : list Point) :
  existsb (fun segment => (x segment =? x head) && (y segment =? y head)) body = true
  <-> In head body.
Proof.
  rewrite existsb_exists. split.
  - intros [s [Hin Heq]]. apply same_cell_eq in Heq. subst s. exact Hin.
  - intros Hin. exists head. split; [exact Hin | apply same_cell_eq; reflexivity].
Qed.

Lemma checkSelfCollision_In (head : Point) (w : World) :
  checkSelfCollision head w = true <-> In head (snake w).
Proof. apply on_body_In. Qed.

Lemma collision_of_In (head : Point) (w : World) :
  In head (snake w) -> collision head w = true.
Proof.
  intros Hin. unfold collision.
  apply checkSelfCollision_In in Hin. rewrite Hin.
  apply orb_true_r.
Qed.

Lemma collision_false_not_In (head : Point) (w : World) :
  collision head w = false -> ~ In head (snake w).
Proof.
  intros Hc Hin. rewrite (collision_of_In _ _ Hin) in Hc. discriminate.
Qed.

(** The rejection loop looks at the draws two by two. *)
Lemma placeApple_loop_free (body : list Point) (cols rws : Q) :
  forall draws p rest,
    placeApple_loop body draws cols rws = Ok (p, rest) -> ~ In p body.
Proof.
  assert (Hboth : forall draws,
    (forall p rest, placeApple_loop body draws cols rws = Ok (p, rest) -> ~ In p body)
    /\ (forall r p rest,
          placeApple_loop body (r :: draws) cols rws = Ok (p, rest) -> ~ In p body)).
  { induction draws as [|r2 draws [IH0 IH1]].
    - split; simpl; intros; discriminate.
    - split; [apply IH1 |].
      intros r1 p rest. simpl.
      destruct (existsb _ body) eqn:Hon; simpl.
      + apply IH0.
      + intros H. injection H as <- _.
        intros Hin. apply (on_body_In (mkPoint _ _)) in Hin.
        simpl in Hin. rewrite Hin in Hon. discriminate. }
  intros draws. apply (Hboth draws).
Qed.

Lemma placeApple_inv (w w' : World) :
  placeApple w = Ok w' ->
  exists p rest,
    placeApple_loop (snake w) (random w) (columns w) (rows w) = Ok (p, rest)
    /\ w' = set_random rest (set_apple p w)
    /\ ~ In p (snake w).
Proof.
  unfold placeApple. intros H.
  apply bind_Ok_inv in H. destruct H as [[p rest] [Hloop Hw]].
  injection Hw as <-. exists p, rest. simpl.
  split; [exact Hloop | split; [reflexivity |]].
  eapply placeApple_loop_free; exact Hloop.
Qed.

(** [placeApple] returns as soon as one round of draws lands off the snake. *)
Lemma placeApple_loop_returns (body : list Point) (cols rws : Q) :
  forall rounds r1 r2 rest,
    Forall (fun rr => In (mkPoint (cell (fst rr) cols) (cell (snd rr) rws)) body)
      rounds ->
    ~ In (mkPoint (cell r1 cols) (cell r2 rws)) body ->
    placeApple_loop body
      (flat_map (fun rr => [fst rr; snd rr]) rounds ++ r1 :: r2 :: rest) cols rws
    = Ok (mkPoint (cell r1 cols) (cell r2 rws), rest).
Proof.
  induction rounds as [|[a b] rounds IH]; intros r1 r2 rest Hall Hfree; simpl.
  - destruct (existsb _ body) eqn:Hon; simpl; [| reflexivity].
    exfalso. apply Hfree. apply (on_body_In (mkPoint _ _)). exact Hon.
  - inversion Hall as [|? ? Hab Hall']; subst. simpl in Hab.
    apply (on_body_In (mkPoint _ _)) in Hab. simpl in Hab. rewrite Hab. simpl.
    apply IH; assumption.
Qed.

(** The inner methods hand one state to the nested [gameLoop]; with [Ok] as
    the loop they return that state. *)
Lemma resetGame_with_bind (loop : World -> result World) (w : World) :
  resetGame_with loop w = bind (resetGame_with Ok w) loop.
Proof.
  unfold resetGame_with.
  destruct (placeApple _) as [w1| |]; simpl; reflexivity.
Qed.

Lemma handleGameOver_with_bind (loop : World -> result World) (w : World) :
  handleGameOver_with loop w = bind (handleGameOver_with Ok w) loop.
Proof. unfold handleGameOver_with. apply resetGame_with_bind. Qed.

(** [update], branch by branch. *)
Lemma update_with_eq (loop : World -> result World) (w : World) :
  update_with loop w =
  match prospective w with
  | None => NoHead
  | Some head =>
      if collision head (commit w) then handleGameOver_with loop (commit w)
      else if (x head =? x (apple w)) && (y head =? y (apple w)) then
        w1 <- placeApple
                (updateScoreDisplay
                   (set_score (score w + 1)
                      (set_snake (head :: snake w) (commit w)))) ;;
        Ok (increaseDifficulty w1)
      else Ok (set_snake (removelast (head :: snake w)) (commit w))
  end.
Proof.
  unfold update_with, prospective. simpl.
  destruct (snake w) as [|s0 body]; reflexivity.
Qed.

Lemma handleGameOver_with_recorded (loop : World -> result World) (w : World) :
  handleGameOver_with loop w = resetGame_with loop (recorded w).
Proof.
  unfold handleGameOver_with, recorded.
  destruct (score w >? highScore w); reflexivity.
Qed.

Lemma resetGame_with_fresh (w w1 : World) :
  resetGame_with Ok w = Ok w1 -> fresh_session w w1.
Proof.
  unfold resetGame_with. intros H.
  apply bind_Ok_inv in H. destruct H as [wa [Hplace Hw1]].
  apply placeApple_inv in Hplace.
  destruct Hplace as [p [rest [_ [-> Hfree]]]].
  destruct (gameLoopTimeout _) as [[|h]|]; injection Hw1 as <-;
    constructor;
    try reflexivity; try exact Hfree; try apply incl_refl;
    exact (incl_filter _ _).
Qed.

(** A tick that moves: either the apple is eaten or the tail is dropped. *)
Lemma update_move_inv (loop : World -> result World) (w w' : World) (head : Point) :
  prospective w = Some head ->
  collision head (commit w) = false ->
  update_with loop w = Ok w' ->
  (head = apple w
   /\ exists p rest,
        ~ In p (head :: snake w)
        /\ w' = increaseDifficulty
                 (set_random rest
                    (set_apple p
                       (updateScoreDisplay
                          (set_score (score w + 1)
                             (set_snake (head :: snake w) (commit w)))))))
  \/ (head <> apple w
      /\ w' = set_snake (removelast (head :: snake w)) (commit w)).
Proof.
  intros Hp Hc. rewrite update_with_eq, Hp, Hc.
  destruct ((x head =? x (apple w)) && (y head =? y (apple w))) eqn:Heat.
  - intros H. left. split; [apply same_cell_eq; exact Heat |].
    apply bind_Ok_inv in H. destruct H as [w1 [Hplace Hw']].
    apply placeApple_inv in Hplace.
    destruct Hplace as [p [rest [_ [-> Hfree]]]].
    injection Hw' as <-. exists p, rest. split; [exact Hfree | reflexivity].
  - intros H. right. injection H as <-. split; [| reflexivity].
    intros ->. rewrite (proj2 (same_cell_eq _ _) eq_refl) in Heat. discriminate.
Qed.

Lemma keydown_cases (key : string) (w : World) :
  keydown key w = w
  \/ exists d, request key = Some d
              /\ direction w <> opposite d
              /\ keydown key w = set_nextDirection d w.
Proof.
  unfold keydown, request.
  destruct (key =? "ArrowUp")%string;
    [| destruct (key =? "ArrowDown")%string;
       [| destruct (key =? "ArrowLeft")%string;
          [| destruct (key =? "ArrowRight")%string; [| left; reflexivity]]]];
    destruct (direction w); simpl; auto;
    right; eexists; (split; [reflexivity | split; [discriminate | reflexivity]]).
Qed.

Lemma In_removelast {A : Type} (a : A) (l : list A) :
  In a (removelast l) -> In a l.
Proof.
  induction l as [|b l IH]; simpl; [tauto |].
  destruct l as [|c l]; simpl in *; [tauto |].
  intros [-> | H]; [left; reflexivity | right; apply IH; exact H].
Qed.

Lemma NoDup_removelast {A : Type} (l : list A) :
  NoDup l -> NoDup (removelast l).
Proof.
  induction l as [|b l IH]; simpl; intros H; [exact H |].
  destruct l as [|c l]; [constructor |].
  inversion H as [|? ? Hb Hl]; subst. constructor.
  - intros Hin. apply Hb. apply In_removelast. exact Hin.
  - apply IH. exact Hl.
Qed.

(** ** Invariants of the loop *)

Section Invariant.
Variable I : World -> Prop.

Hypothesis I_move : forall loop w w' head,
  I w -> prospective w = Some head -> collision head (commit w) = false ->
  update_with loop w = Ok w' -> I w'.
Hypothesis I_over : forall w w1,
  I w -> handleGameOver_with Ok (commit w) = Ok w1 -> I w1.
Hypothesis I_frame : forall w, I w -> I (rearm (draw w)).

Lemma update_inv (loop : World -> result World) :
  (forall w w', I w -> loop w = Ok w' -> I w') ->
  forall w w', I w -> update_with loop w = Ok w' -> I w'.
Proof.
  intros Hloop w w' Hw Hup.
  destruct (prospective w) as [head|] eqn:Hp.
  - destruct (collision head (commit w)) eqn:Hc.
    + rewrite update_with_eq, Hp, Hc, handleGameOver_with_bind in Hup.
      apply bind_Ok_inv in Hup. destruct Hup as [w1 [Hover Hnested]].
      eapply Hloop; [| exact Hnested]. eapply I_over; eassumption.
    + eapply I_move; eassumption.
  - rewrite update_with_eq, Hp in Hup. discriminate.
Qed.

Lemma gameLoop_inv :
  forall depth w w', I w -> gameLoop depth w = Ok w' -> I w'.
Proof.
  induction depth as [|depth IH]; simpl; intros w w' Hw H; [discriminate |].
  apply bind_Ok_inv in H. destruct H as [w1 [Hup Hw']].
  injection Hw' as <-. apply I_frame.
  eapply update_inv; [apply IH | exact Hw | exact Hup].
Qed.

Hypothesis I_new : forall width height stored draws w1,
  resetGame_with Ok (updateHighScoreDisplay (blank width height stored draws))
    = Ok w1 -> I w1.
Hypothesis I_keydown : forall key w, I w -> I (keydown key w).
Hypothesis I_clearTimeout : forall h w, I w -> I (clearTimeout h w).

Lemma reachable_inv : forall w, reachable w -> I w.
Proof.
  induction 1 as [width height stored draws depth w Hnew
                 | key w _ IH | h depth w w' _ IH Hfire].
  - unfold constructor, resetGame in Hnew.
    rewrite resetGame_with_bind in Hnew.
    apply bind_Ok_inv in Hnew. destruct Hnew as [w1 [Hreset Hloop]].
    eapply gameLoop_inv; [| exact Hloop]. eapply I_new; exact Hreset.
  - apply I_keydown. exact IH.
  - unfold timeout in Hfire. destruct (pending h w).
    + eapply gameLoop_inv; [| exact Hfire]. apply I_clearTimeout. exact IH.
    + injection Hfire as <-. exact IH.
Qed.
End Invariant.

(** What [handleGameOver] hands to the nested loop is a fresh session built
    on the recorded state. *)
Lemma handleGameOver_with_fresh (w w1 : World) :
  handleGameOver_with Ok w = Ok w1 -> fresh_session (recorded w) w1.
Proof.
  rewrite handleGameOver_with_recorded. apply resetGame_with_fresh.
Qed.

(** [resetGame] and [handleGameOver] reach the nested loop as soon as the
    rejection loop finds a cell off (3, 1). *)
Lemma resetGame_with_returns (w : World) (p : Point) (rest : list Q) :
  placeApple_loop [mkPoint 3 1] (random w) (columns w) (rows w) = Ok (p, rest) ->
  exists w1, resetGame_with Ok w = Ok w1 /\ apple w1 = p /\ random w1 = rest.
Proof.
  intros Hloop. unfold resetGame_with.
  set (v := updateScoreDisplay _).
  assert (Hplace : placeApple v = Ok (set_random rest (set_apple p v))).
  { unfold placeApple.
    change (placeApple_loop (snake v) (random v) (columns v) (rows v))
      with (placeApple_loop [mkPoint 3 1] (random w) (columns w) (rows w)).
    rewrite Hloop. reflexivity. }
  rewrite Hplace. cbn [bind].
  destruct (gameLoopTimeout _) as [[|h]|]; eexists; repeat split; reflexivity.
Qed.

Lemma handleGameOver_with_returns (w : World) (p : Point) (rest : list Q) :
  placeApple_loop [mkPoint 3 1] (random w) (columns w) (rows w) = Ok (p, rest) ->
  exists w1, handleGameOver_with Ok w = Ok w1 /\ apple w1 = p /\ random w1 = rest.
Proof.
  intros Hloop. rewrite handleGameOver_with_recorded.
  apply resetGame_with_returns.
  unfold recorded. destruct (score w >? highScore w); exact Hloop.
Qed.

Lemma prospective_Some_body (w : World) (head : Point) :
  prospective w = Some head ->
  exists s0 body, snake w = s0 :: body /\ head = step (nextDirection w) s0.
Proof.
  unfold prospective. destruct (snake w) as [|s0 body]; intros H; [discriminate |].
  injection H as <-. exists s0, body. split; reflexivity.
Qed.

(** *** The body: non-empty, no cell twice *)

Lemma body_ok_move (loop : World -> result World) (w w' : World) (head : Point) :
  body_ok w -> prospective w = Some head -> collision head (commit w) = false ->
  update_with loop w = Ok w' -> body_ok w'.
Proof.
  intros [_ Hnd] Hp Hc Hup.
  assert (Hfree : ~ In head (snake w)) by exact (collision_false_not_In _ _ Hc).
  destruct (update_move_inv _ _ _ _ Hp Hc Hup) as [[_ [p [rest [_ ->]]]] | [_ ->]].
  - unfold increaseDifficulty. simpl.
    destruct (speed w >? CONFIG.minSpeed); simpl;
      (split; [discriminate | constructor; assumption]).
  - destruct (prospective_Some_body _ _ Hp) as [s0 [body [Hs _]]].
    split.
    + cbn [snake set_snake]. rewrite Hs. simpl. destruct body; discriminate.
    + cbn [snake set_snake]. apply NoDup_removelast. constructor; assumption.
Qed.

Lemma body_ok_fresh (w w1 : World) : fresh_session w w1 -> body_ok w1.
Proof.
  intros F. unfold body_ok. rewrite (fresh_snake _ _ F). split; [discriminate |].
  constructor; [simpl; tauto | constructor].
Qed.

Lemma body_ok_keydown (key : string) (w : World) : body_ok w -> body_ok (keydown key w).
Proof.
  intros H. destruct (keydown_cases key w) as [-> | [d [_ [_ ->]]]]; exact H.
Qed.

Lemma body_ok_gameLoop (depth : nat) (w w' : World) :
  body_ok w -> gameLoop depth w = Ok w' -> body_ok w'.
Proof.
  apply gameLoop_inv.
  - exact body_ok_move.
  - intros v v1 _ H. eapply body_ok_fresh, handleGameOver_with_fresh, H.
  - intros v H. exact H.
Qed.

Lemma body_ok_reachable (w : World) : reachable w -> body_ok w.
Proof.
  apply reachable_inv.
  - exact body_ok_move.
  - intros v v1 _ H. eapply body_ok_fresh, handleGameOver_with_fresh, H.
  - intros v H. exact H.
  - intros width height stored draws w1 H.
    eapply body_ok_fresh, resetGame_with_fresh, H.
  - exact body_ok_keydown.
  - intros h v H. exact H.
Qed.

(** *** The apple: never under the snake *)

Lemma apple_free_move (loop : World -> result World) (w w' : World) (head : Point) :
  apple_free w -> prospective w = Some head -> collision head (commit w) = false ->
  update_with loop w = Ok w' -> apple_free w'.
Proof.
  intros Hfree Hp Hc Hup.
  destruct (update_move_inv _ _ _ _ Hp Hc Hup) as [[_ [p [rest [Hp' ->]]]] | [Hne ->]].
  - unfold apple_free, increaseDifficulty.
    destruct (speed _ >? CONFIG.minSpeed); exact Hp'.
  - unfold apple_free. cbn [snake apple set_snake commit set_direction].
    intros Hin. apply In_removelast in Hin. destruct Hin as [Heq | Hin].
    + apply Hne. exact Heq.
    + apply Hfree. exact Hin.
Qed.

Lemma apple_free_keydown (key : string) (w : World) :
  apple_free w -> apple_free (keydown key w).
Proof.
  intros H. destruct (keydown_cases key w) as [-> | [d [_ [_ ->]]]]; exact H.
Qed.

Lemma apple_free_gameLoop (depth : nat) (w w' : World) :
  apple_free w -> gameLoop depth w = Ok w' -> apple_free w'.
Proof.
  apply gameLoop_inv.
  - exact apple_free_move.
  - intros v v1 _ H. exact (fresh_apple _ _ (handleGameOver_with_fresh _ _ H)).
  - intros v H. exact H.
Qed.

Lemma apple_free_reachable (w : World) : reachable w -> apple_free w.
Proof.
  apply reachable_inv.
  - exact apple_free_move.
  - intros v v1 _ H. exact (fresh_apple _ _ (handleGameOver_with_fresh _ _ H)).
  - intros v H. exact H.
  - intros width height stored draws w1 H.
    exact (fresh_apple _ _ (resetGame_with_fresh _ _ H)).
  - exact apple_free_keydown.
  - intros h v H. exact H.
Qed.

(** *** The direction buffer: never the reverse of the committed direction *)

Lemma opposite_neq (d : Direction) : d <> opposite d.
Proof. destruct d; discriminate. Qed.

Lemma opposite_involutive (d : Direction) : opposite (opposite d) = d.
Proof. destruct d; reflexivity. Qed.

Lemma buffer_ok_move (loop : World -> result World) (w w' : World) (head : Point) :
  prospective w = Some head -> collision head (commit w) = false ->
  update_with loop w = Ok w' ->
  direction w' = nextDirection w /\ nextDirection w' = nextDirection w.
Proof.
  intros Hp Hc Hup.
  destruct (update_move_inv _ _ _ _ Hp Hc Hup) as [[_ [p [rest [_ ->]]]] | [_ ->]].
  - unfold increaseDifficulty.
    destruct (speed _ >? CONFIG.minSpeed); split; reflexivity.
  - split; reflexivity.
Qed.

Lemma buffer_ok_fresh (w w1 : World) : fresh_session w w1 -> buffer_ok w1.
Proof.
  intros F. unfold buffer_ok.
  rewrite (fresh_direction _ _ F), (fresh_nextDirection _ _ F). discriminate.
Qed.

Lemma buffer_ok_keydown (key : string) (w : World) :
  buffer_ok w -> buffer_ok (keydown key w).
Proof.
  intros H. destruct (keydown_cases key w) as [-> | [d [_ [Hd ->]]]]; [exact H |].
  unfold buffer_ok. cbn [nextDirection direction set_nextDirection].
  intros ->. apply Hd. symmetry. apply opposite_involutive.
Qed.

Lemma buffer_ok_reachable (w : World) : reachable w -> buffer_ok w.
Proof.
  apply reachable_inv.
  - intros loop v v' head _ Hp Hc Hup.
    destruct (buffer_ok_move _ _ _ _ Hp Hc Hup) as [Hd Hn].
    unfold buffer_ok. rewrite Hd, Hn. apply opposite_neq.
  - intros v v1 _ H. eapply buffer_ok_fresh, handleGameOver_with_fresh, H.
  - intros v H. exact H.
  - intros width height stored draws w1 H.
    eapply buffer_ok_fresh, resetGame_with_fresh, H.
  - exact buffer_ok_keydown.
  - intros h v H. exact H.
Qed.

(** *** The speed: on the grid of the schedule, between the two bounds *)

Lemma speed_ok_increaseDifficulty (w : World) :
  speed_ok w ->
  speed_ok (increaseDifficulty w)
  /\ speed (increaseDifficulty w) = Z.max CONFIG.minSpeed (speed w - CONFIG.speedDecrement).
Proof.
  unfold speed_ok, increaseDifficulty,
    CONFIG.minSpeed, CONFIG.initialSpeed, CONFIG.speedDecrement.
  intros [Hb Hm].
  destruct (speed w >? 50) eqn:Hgt; cbn [speed set_speed].
  - apply Z.gtb_lt in Hgt.
    assert (Hstep : (speed w - 5 - 50) mod 5 = 0).
    { replace (speed w - 5 - 50) with (speed w - 50 + (-1) * 5) by ring.
      rewrite Z.mod_add by discriminate. exact Hm. }
    assert (Hlow : 55 <= speed w).
    { apply Z.mod_divide in Hm; [| discriminate].
      destruct Hm as [k Hk]. lia. }
    repeat split; first [exact Hstep | lia].
  - assert (Hle : speed w <= 50) by (rewrite Z.gtb_ltb in Hgt; apply Z.ltb_ge; exact Hgt).
    repeat split; first [exact Hm | lia].
Qed.

Lemma speed_move (loop : World -> result World) (w w' : World) (head : Point) :
  prospective w = Some head -> collision head (commit w) = false ->
  update_with loop w = Ok w' ->
  speed w' = if (x head =? x (apple w)) && (y head =? y (apple w))
             then speed (increaseDifficulty w) else speed w.
Proof.
  intros Hp Hc Hup.
  destruct (update_move_inv _ _ _ _ Hp Hc Hup) as [[He [p [rest [_ ->]]]] | [Hne ->]].
  - rewrite (proj2 (same_cell_eq head (apple w)) He).
    unfold increaseDifficulty. cbn [speed set_random set_apple updateScoreDisplay
      emit set_log set_score set_snake commit set_direction].
    destruct (speed w >? CONFIG.minSpeed); reflexivity.
  - destruct ((x head =? x (apple w)) && (y head =? y (apple w))) eqn:He.
    + exfalso. apply Hne. apply same_cell_eq. exact He.
    + reflexivity.
Qed.

Lemma speed_ok_fresh (w w1 : World) : fresh_session w w1 -> speed_ok w1.
Proof.
  intros F. unfold speed_ok. rewrite (fresh_speed _ _ F).
  split; [split; discriminate | reflexivity].
Qed.

Lemma speed_ok_keydown (key : string) (w : World) :
  speed_ok w -> speed_ok (keydown key w).
Proof.
  intros H. destruct (keydown_cases key w) as [-> | [d [_ [_ ->]]]]; exact H.
Qed.

Lemma speed_ok_reachable (w : World) : reachable w -> speed_ok w.
Proof.
  apply reachable_inv.
  - intros loop v v' head Hv Hp Hc Hup.
    unfold speed_ok. rewrite (speed_move _ _ _ _ Hp Hc Hup).
    destruct ((x head =? x (apple v)) && (y head =? y (apple v))); [| exact Hv].
    exact (proj1 (speed_ok_increaseDifficulty v Hv)).
  - intros v v1 _ H. eapply speed_ok_fresh, handleGameOver_with_fresh, H.
  - intros v H. exact H.
  - intros width height stored draws w1 H.
    eapply speed_ok_fresh, resetGame_with_fresh, H.
  - exact speed_ok_keydown.
  - intros h v H. exact H.
Qed.

(** *** The high score and its stored copy *)

Lemma recorded_highScore (w : World) :
  highScore (recorded w) = (if score w >? highScore w then score w else highScore w)
  /\ localStorage (recorded w)
     = (if score w >? highScore w then Some (score w) else localStorage w).
Proof.
  unfold recorded. destruct (score w >? highScore w); split; reflexivity.
Qed.

Lemma highScore_move (loop : World -> result World) (w w' : World) (head : Point) :
  prospective w = Some head -> collision head (commit w) = false ->
  update_with loop w = Ok w' ->
  highScore w' = highScore w /\ localStorage w' = localStorage w.
Proof.
  intros Hp Hc Hup.
  destruct (update_move_inv _ _ _ _ Hp Hc Hup) as [[_ [p [rest [_ ->]]]] | [_ ->]].
  - unfold increaseDifficulty.
    destruct (speed _ >? CONFIG.minSpeed); split; reflexivity.
  - split; reflexivity.
Qed.

Lemma highScore_over (w w1 : World) :
  handleGameOver_with Ok w = Ok w1 ->
  highScore w1 = (if score w >? highScore w then score w else highScore w)
  /\ localStorage w1
     = (if score w >? highScore w then Some (score w) else localStorage w).
Proof.
  intros H. apply handleGameOver_with_fresh in H.
  rewrite (fresh_highScore _ _ H), (fresh_localStorage _ _ H).
  apply recorded_highScore.
Qed.

Lemma highScore_over_le (w w1 : World) :
  handleGameOver_with Ok w = Ok w1 -> highScore w <= highScore w1.
Proof.
  intros H. rewrite (proj1 (highScore_over _ _ H)).
  destruct (score w >? highScore w) eqn:Hgt; [| lia].
  apply Z.gtb_lt in Hgt. lia.
Qed.

Lemma highScore_gameLoop_le (depth : nat) (w w' : World) :
  gameLoop depth w = Ok w' -> highScore w <= highScore w'.
Proof.
  intros H.
  refine (gameLoop_inv (fun v => highScore w <= highScore v) _ _ _ depth w w' _ H).
  - intros loop v v' head Hv Hp Hc Hup.
    rewrite (proj1 (highScore_move _ _ _ _ Hp Hc Hup)). exact Hv.
  - intros v v1 Hv Hover. apply highScore_over_le in Hover.
    change (highScore (commit v)) with (highScore v) in Hover. lia.
  - intros v Hv. exact Hv.
  - lia.
Qed.

Lemma store_ok_reachable (w : World) : reachable w -> store_ok w.
Proof.
  apply reachable_inv.
  - intros loop v v' head Hv Hp Hc Hup. unfold store_ok.
    destruct (highScore_move _ _ _ _ Hp Hc Hup) as [-> ->]. exact Hv.
  - intros v v1 Hv Hover. unfold store_ok.
    destruct (highScore_over _ _ Hover) as [-> ->].
    change (score (commit v)) with (score v).
    change (highScore (commit v)) with (highScore v).
    change (localStorage (commit v)) with (localStorage v).
    destruct (score v >? highScore v); [left; reflexivity | exact Hv].
  - intros v H. exact H.
  - intros width height stored draws w1 H. apply resetGame_with_fresh in H.
    unfold store_ok. rewrite (fresh_highScore _ _ H), (fresh_localStorage _ _ H).
    destruct stored as [n|]; [left | right; split]; reflexivity.
  - intros key v H.
    destruct (keydown_cases key v) as [-> | [d [_ [_ ->]]]]; exact H.
  - intros h v H. exact H.
Qed.

(** *** What was shown to the player is never taken back *)

Lemma log_gameLoop (depth : nat) (w w' : World) :
  gameLoop depth w = Ok w' -> exists l, log w' = l ++ log w.
Proof.
  intros H.
  refine (gameLoop_inv (fun v => exists l, log v = l ++ log w) _ _ _ depth w w' _ H).
  - intros loop v v' head [l Hl] Hp Hc Hup.
    destruct (update_move_inv _ _ _ _ Hp Hc Hup) as [[_ [p [rest [_ ->]]]] | [_ ->]].
    + exists (ScoreText (score v + 1) :: l).
      unfold increaseDifficulty.
      destruct (speed _ >? CONFIG.minSpeed);
        cbn [log set_speed set_random set_apple updateScoreDisplay emit set_log];
        cbn [log set_score set_snake commit set_direction];
        rewrite Hl; reflexivity.
    + exists l. exact Hl.
  - intros v v1 [l Hl] Hover. apply handleGameOver_with_fresh in Hover.
    rewrite (fresh_log _ _ Hover). unfold recorded.
    destruct (score (commit v) >? highScore (commit v)).
    + exists (ScoreText 0 :: Alert (score v) (score v) :: HighScoreText (score v) :: l).
      cbn [log alert emit set_log updateHighScoreDisplay set_localStorage
           set_highScore commit set_direction score highScore].
      rewrite Hl. reflexivity.
    + exists (ScoreText 0 :: Alert (score v) (highScore v) :: l).
      cbn [log alert emit set_log commit set_direction score highScore].
      rewrite Hl. reflexivity.
  - intros v [l Hl]. exists (Draw (snake v) (apple v) :: l).
    cbn [log rearm draw emit set_log setTimeout set_gameLoopTimeout
         set_nextHandle set_timers].
    rewrite Hl. reflexivity.
  - exists []. reflexivity.
Qed.

(** *** The timer table *)

Lemma gameLoop_rearmed (depth : nat) (w w' : World) :
  gameLoop depth w = Ok w' ->
  exists v, w' = rearm (draw v) /\ update_with (gameLoop (pred depth)) w = Ok v.
Proof.
  destruct depth as [|depth]; simpl; intros H; [discriminate |].
  apply bind_Ok_inv in H. destruct H as [v [Hup Hw']].
  injection Hw' as <-. exists v. split; [reflexivity | exact Hup].
Qed.

Lemma rearm_timers (v : World) :
  timers (rearm (draw v)) = timers v ++ [(nextHandle v, speed v)]
  /\ gameLoopTimeout (rearm (draw v)) = Some (nextHandle v)
  /\ nextHandle (rearm (draw v)) = S (nextHandle v).
Proof. repeat split; reflexivity. Qed.

(** ** Sample executions are executions *)

Lemma started_new : constructor 400 400 None [1#2; 1#2; 1#4; 3#4] 1 = Ok started.
Proof. vm_compute. reflexivity. Qed.

Lemma started_reachable : reachable started.
Proof. exact (reach_new _ _ _ _ _ _ started_new). Qed.

Lemma climbed_timeout : timeout 1 1 turned = Ok climbed.
Proof. vm_compute. reflexivity. Qed.

Lemma crashed_timeout : timeout 2 2 climbed = Ok crashed.
Proof. vm_compute. reflexivity. Qed.

Lemma crashed_reachable : reachable crashed.
Proof.
  apply (reach_timeout 2 2 climbed); [| exact crashed_timeout].
  apply (reach_timeout 1 1 turned); [| exact climbed_timeout].
  apply reach_keydown. exact started_reachable.
Qed.

(** ** The tick *)



(** C5.  On a tick whose prospective head is free of wall and body and is
    the apple cell, as soon as the rejection loop of [placeApple] finds a
    cell, [update] returns with the head prepended and no tail removed
    (length + 1), the score + 1, the apple moved to that cell, off the grown
    snake and away from its old place, and the speed stepped by
    [increaseDifficulty]. *)
Theorem apple_tick_grows (depth : nat) (w : World) (head p : Point) (rest : list Q) :
  prospective w = Some head ->
  collision head (commit w) = false ->
  head = apple w ->
  placeApple_loop (head :: snake w) (random w) (columns w) (rows w) = Ok (p, rest) ->
  exists w',
    update depth w = Ok w'
    /\ snake w' = head :: snake w
    /\ List.length (snake w') = S (List.length (snake w))
    /\ score w' = score w + 1
    /\ apple w' = p
    /\ apple w' <> apple w
    /\ ~ In (apple w') (snake w')
    /\ speed w' = (if speed w >? CONFIG.minSpeed
                   then speed w - CONFIG.speedDecrement else speed w).
Proof.
  intros Hp Hc He Hloop.
  assert (Hfree : ~ In p (head :: snake w))
    by exact (placeApple_loop_free _ _ _ _ _ _ Hloop).
  assert (Hup : update depth w
                = Ok (increaseDifficulty
                        (set_random rest
                           (set_apple p
                              (updateScoreDisplay
                                 (set_score (score w + 1)
                                    (set_snake (head :: snake w) (commit w)))))))).
  { unfold update. rewrite update_with_eq, Hp, Hc.
    rewrite (proj2 (same_cell_eq head (apple w)) He).
    unfold placeApple.
    change (placeApple_loop (head :: snake w) (random w) (columns w) (rows w))
      with (placeApple_loop
              (snake (updateScoreDisplay
                        (set_score (score w + 1)
                           (set_snake (head :: snake w) (commit w)))))
              (random (updateScoreDisplay
                         (set_score (score w + 1)
                            (set_snake (head :: snake w) (commit w)))))
              (columns (updateScoreDisplay
                          (set_score (score w + 1)
                             (set_snake (head :: snake w) (commit w)))))
              (rows (updateScoreDisplay
                       (set_score (score w + 1)
                          (set_snake (head :: snake w) (commit w)))))) in Hloop.
    rewrite Hloop. reflexivity. }
  eexists. split; [exact Hup |].
  unfold increaseDifficulty.
  cbn [speed set_random set_apple updateScoreDisplay emit set_log set_score
       set_snake commit set_direction].
  destruct (speed w >? CONFIG.minSpeed);
    (repeat (split; [reflexivity |]));
    (split; [| split; [exact Hfree | reflexivity]]);
    cbn [apple set_speed set_random set_apple];
    intros ->; apply Hfree; left; exact He.
Qed.

(** The snake at (4, 1) eats the apple on (5, 1): the first cell drawn is
    (5, 1) itself and is rejected, the second is (10, 10). *)
Lemma apple_tick_grows_witness :
  exists w',
    update 0 feeding = Ok w'
    /\ snake w' = [mkPoint 5 1; mkPoint 4 1]
    /\ List.length (snake w') = 2%nat
    /\ score w' = 1
    /\ apple w' = mkPoint 10 10
    /\ apple w' <> mkPoint 5 1
    /\ ~ In (apple w') (snake w')
    /\ speed w' = 195.
Proof.
  apply (apple_tick_grows 0 feeding (mkPoint 5 1) (mkPoint 10 10) []);
    reflexivity.
Defined.

(** C6.  On a tick whose prospective head is free of wall and body and is
    not the apple cell, [update] returns with the head prepended and exactly
    the tail cell removed, so the length is the same; score, apple and speed
    are unchanged. *)
Theorem plain_tick_keeps_length (depth : nat) (w : World) (head : Point) :
  prospective w = Some head ->
  collision head (commit w) = false ->
  head <> apple w ->
  exists w',
    update depth w = Ok w'
    /\ snake w' = head :: removelast (snake w)
    /\ List.length (snake w') = List.length (snake w)
    /\ score w' = score w
    /\ apple w' = apple w
    /\ speed w' = speed w.
Proof.
  intros Hp Hc Hne.
  destruct (prospective_Some_body _ _ Hp) as [s0 [body [Hs _]]].
  exists (set_snake (removelast (head :: snake w)) (commit w)).
  assert (Heat : (x head =? x (apple w)) && (y head =? y (apple w)) = false).
  { destruct ((x head =? x (apple w)) && (y head =? y (apple w))) eqn:E;
      [| reflexivity].
    exfalso. apply Hne. apply same_cell_eq. exact E. }
  split.
  { unfold update. rewrite update_with_eq, Hp, Hc, Heat. reflexivity. }
  cbn [snake set_snake score apple speed commit set_direction].
  rewrite Hs.
  assert (Hrl : removelast (head :: s0 :: body) = head :: removelast (s0 :: body))
    by reflexivity.
  rewrite Hrl.
  repeat (split; [reflexivity |]).
  split; [| repeat split; reflexivity].
  cbn [List.length]. f_equal.
  clear. revert s0. induction body as [|b body IH]; intros s0; [reflexivity |].
  change (removelast (s0 :: b :: body)) with (s0 :: removelast (b :: body)).
  cbn [List.length]. f_equal. apply IH.
Qed.

(** The one-cell snake at (4, 1) moves right with the apple at (10, 10):
    it is at (5, 1) afterwards and still one cell long. *)
Lemma plain_tick_keeps_length_witness :
  exists w',
    update 0 started = Ok w'
    /\ snake w' = [mkPoint 5 1]
    /\ List.length (snake w') = 1%nat
    /\ score w' = 0
    /\ apple w' = mkPoint 10 10
    /\ speed w' = 200.
Proof.
  apply (plain_tick_keeps_length 0 started (mkPoint 5 1));
    [reflexivity | reflexivity | discriminate].
Defined.

(** ** The difficulty schedule *)

(** Off the schedule the step is not a clamp: from 52 the next speed is 47.
    No session gets there, since 200 is a whole number of steps above 50. *)
Remark increaseDifficulty_off_schedule :
  speed (increaseDifficulty (set_speed 52 started)) = 47
  /\ Z.max CONFIG.minSpeed (52 - CONFIG.speedDecrement) = 50.
Proof. split; reflexivity. Qed.

Lemma speed_ok_gameLoop (depth : nat) (w w' : World) :
  speed_ok w -> gameLoop depth w = Ok w' -> speed_ok w'.
Proof.
  apply gameLoop_inv.
  - intros loop v v' head Hv Hp Hc Hup.
    unfold speed_ok. rewrite (speed_move _ _ _ _ Hp Hc Hup).
    destruct ((x head =? x (apple v)) && (y head =? y (apple v))); [| exact Hv].
    exact (proj1 (speed_ok_increaseDifficulty v Hv)).
  - intros v v1 _ H. eapply speed_ok_fresh, handleGameOver_with_fresh, H.
  - intros v H. exact H.
Qed.

(** C3.  The speed of a running game is always on the schedule: between
    [minSpeed] and [initialSpeed], a whole number of decrements above
    [minSpeed].  [resetGame] starts every session there, at [initialSpeed];
    key presses, timer bookkeeping and every tick keep it there, so it holds
    in every state the page can reach and in every state a tick starts
    from, the first tick of a session included.  On the schedule, eating an
    apple takes the speed to [max minSpeed (speed - speedDecrement)], and a
    tick that does not end the session leaves the speed where it was or,
    when the apple is eaten, at that maximum: never higher than before,
    never below [minSpeed]. *)
Theorem speed_schedule :
  (forall w, speed_ok w ->
     CONFIG.minSpeed <= speed w <= CONFIG.initialSpeed
     /\ speed (increaseDifficulty w)
        = Z.max CONFIG.minSpeed (speed w - CONFIG.speedDecrement)
     /\ speed_ok (increaseDifficulty w))
  /\ (forall depth w head w',
        speed_ok w ->
        prospective w = Some head ->
        collision head (commit w) = false ->
        update depth w = Ok w' ->
        speed w' = (if (x head =? x (apple w)) && (y head =? y (apple w))
                    then Z.max CONFIG.minSpeed (speed w - CONFIG.speedDecrement)
                    else speed w)
        /\ CONFIG.minSpeed <= speed w' <= speed w
        /\ speed_ok w')
  /\ (forall v v1, resetGame_with Ok v = Ok v1 ->
        speed v1 = CONFIG.initialSpeed /\ speed_ok v1)
  /\ (forall depth v v', speed_ok v -> gameLoop depth v = Ok v' -> speed_ok v')
  /\ (forall key v, speed_ok v -> speed_ok (keydown key v))
  /\ (forall h v, speed_ok v -> speed_ok (clearTimeout h v))
  /\ (forall w, reachable w -> speed_ok w)
  /\ (forall h w, reachable w -> speed_ok (clearTimeout h w)).
Proof.
  split.
  { intros w Hok. destruct (speed_ok_increaseDifficulty w Hok) as [Hok' Hmax].
    split; [exact (proj1 Hok) |]. split; [exact Hmax | exact Hok']. }
  split.
  { intros depth w head w' Hok Hp Hc Hup.
    destruct (speed_ok_increaseDifficulty w Hok) as [Hok' Hmax].
    pose proof (proj1 Hok) as Hb. pose proof (proj1 Hok') as Hb'.
    unfold update in Hup.
    assert (Hs := speed_move _ _ _ _ Hp Hc Hup).
    destruct ((x head =? x (apple w)) && (y head =? y (apple w))).
    - split; [rewrite Hs; exact Hmax |]. split.
      + rewrite Hs, Hmax. rewrite Hmax in Hb'.
        unfold CONFIG.speedDecrement in *. lia.
      + unfold speed_ok. rewrite Hs. exact Hok'.
    - split; [exact Hs |]. split; [rewrite Hs; lia |].
      unfold speed_ok. rewrite Hs. exact Hok. }
  split.
  { intros v v1 H. apply resetGame_with_fresh in H.
    split; [exact (fresh_speed _ _ H) | exact (speed_ok_fresh _ _ H)]. }
  split; [exact speed_ok_gameLoop |].
  split; [exact speed_ok_keydown |].
  split; [intros h v H; exact H |].
  split; [exact speed_ok_reachable |].
  intros h w Hr. exact (speed_ok_reachable w Hr).
Qed.

(** The first tick of a session whose apple was drawn on (4, 1): the state
    comes from [resetGame], the tick eats the apple and the speed goes from
    200 to 195. *)
Lemma speed_schedule_witness :
  resetGame_with Ok (set_random [1#5; 1#16; 1#2; 1#2] coiled) = Ok first_bite
  /\ speed first_bite = 200
  /\ apple first_bite = mkPoint 4 1
  /\ speed (returned (update 0 first_bite) first_bite) = Z.max 50 (200 - 5)
  /\ 50 <= speed (returned (update 0 first_bite) first_bite) <= 200.
Proof.
  destruct speed_schedule as [_ [Htick [Hreset _]]].
  assert (Hr : resetGame_with Ok (set_random [1#5; 1#16; 1#2; 1#2] coiled)
               = Ok first_bite) by (vm_compute; reflexivity).
  destruct (Hreset _ _ Hr) as [Hs Hok].
  assert (Hup : update 0 first_bite = Ok (returned (update 0 first_bite) first_bite))
    by (vm_compute; reflexivity).
  destruct (Htick 0%nat first_bite (mkPoint 4 1) _ Hok eq_refl eq_refl Hup)
    as [Hnew [Hb _]].
  split; [exact Hr |]. split; [exact Hs |]. split; [reflexivity |].
  split; [exact Hnew |]. rewrite Hs in Hb. exact Hb.
Defined.

(** ** The direction buffer *)

Lemma legal_iff (committed d : Direction) :
  legal committed d = true <-> d <> opposite committed.
Proof.
  destruct committed, d; simpl; split; intros H;
    first [reflexivity | discriminate | exfalso; apply H; reflexivity].
Qed.

Lemma keydown_request (key : string) (w : World) :
  keydown key w =
  match request key with
  | Some d => if legal (direction w) d then set_nextDirection d w else w
  | None => w
  end.
Proof.
  unfold keydown, request, legal.
  destruct (key =? "ArrowUp")%string;
    [| destruct (key =? "ArrowDown")%string;
       [| destruct (key =? "ArrowLeft")%string;
          [| destruct (key =? "ArrowRight")%string]]];
    try reflexivity; destruct (direction w); reflexivity.
Qed.

Lemma last_cons {A : Type} (a d : A) (l : list A) : last (a :: l) d = last l a.
Proof.
  revert a d. induction l as [|b l IH]; intros a d; [reflexivity |].
  change (last (a :: b :: l) d) with (last (b :: l) d).
  rewrite (IH b d), (IH b a). reflexivity.
Qed.

Lemma keydowns_buffer (keys : list string) :
  forall w,
    direction (keydowns keys w) = direction w
    /\ nextDirection (keydowns keys w)
       = last (filter (legal (direction w)) (requests keys)) (nextDirection w).
Proof.
  induction keys as [|key keys IH]; intros w; [split; reflexivity |].
  change (keydowns (key :: keys) w) with (keydowns keys (keydown key w)).
  destruct (IH (keydown key w)) as [Hd Hn]. rewrite Hd, Hn.
  unfold requests. cbn [flat_map]. fold (requests keys).
  rewrite keydown_request.
  destruct (request key) as [d|]; [| split; reflexivity].
  cbn [app filter].
  destruct (legal (direction w) d); [| split; reflexivity].
  split; [reflexivity |].
  cbn [direction nextDirection set_nextDirection].
  symmetry. apply last_cons.
Qed.

Lemma keydowns_reachable (keys : list string) :
  forall w, reachable w -> reachable (keydowns keys w).
Proof.
  induction keys as [|key keys IH]; intros w Hr; [exact Hr |].
  apply (IH (keydown key w)). apply reach_keydown. exact Hr.
Qed.

(** C4.  Between two ticks a key press asking for [d] overwrites the
    buffered direction when [d] is not the reverse of the committed
    direction and changes nothing when it is; after any number of key
    presses the buffer holds the last legal request (or what it held, if
    there was none) and the committed direction has not moved; so the
    direction the next tick commits is never the reverse of the one
    committed before; the first tick of a session commits the direction
    [resetGame] has just set. *)
Theorem direction_buffer (w : World) (keys : list string) :
  reachable w ->
  (forall key d, request key = Some d ->
     keydown key w = if legal (direction w) d then set_nextDirection d w else w)
  /\ (forall d, legal (direction w) d = true <-> d <> opposite (direction w))
  /\ direction (keydowns keys w) = direction w
  /\ nextDirection (keydowns keys w)
     = last (filter (legal (direction w)) (requests keys)) (nextDirection w)
  /\ direction (commit (keydowns keys w)) <> opposite (direction w)
  /\ (forall depth head w',
        prospective (keydowns keys w) = Some head ->
        collision head (commit (keydowns keys w)) = false ->
        update depth (keydowns keys w) = Ok w' ->
        direction w' = nextDirection (keydowns keys w)
        /\ direction w' <> opposite (direction w))
  /\ (forall v v1, resetGame_with Ok v = Ok v1 ->
        direction (commit v1) <> opposite (direction v1)).
Proof.
  intros Hr.
  destruct (keydowns_buffer keys w) as [Hd Hn].
  pose proof (buffer_ok_reachable _ (keydowns_reachable keys w Hr)) as Hok.
  unfold buffer_ok in Hok. rewrite Hd in Hok.
  split.
  { intros key d Hreq. rewrite keydown_request, Hreq. reflexivity. }
  split; [intros d; apply legal_iff |].
  split; [exact Hd |]. split; [exact Hn |]. split; [exact Hok |].
  split.
  - intros depth head w' Hp Hc Hup.
    destruct (buffer_ok_move _ _ _ _ Hp Hc Hup) as [Hd' _].
    split; [exact Hd' | rewrite Hd'; exact Hok].
  - intros v v1 H. exact (buffer_ok_fresh _ _ (resetGame_with_fresh _ _ H)).
Qed.

(** Heading right, the player presses up, left and down before the next
    tick: left is refused, down is what remains, and the tick goes down. *)
Lemma direction_buffer_witness :
  direction (keydowns ["ArrowUp"; "ArrowLeft"; "ArrowDown"]%string started) = Right
  /\ nextDirection (keydowns ["ArrowUp"; "ArrowLeft"; "ArrowDown"]%string started)
     = last [Up; Down] Right
  /\ direction (commit (keydowns ["ArrowUp"; "ArrowLeft"; "ArrowDown"]%string started))
     <> Left.
Proof.
  destruct (direction_buffer started ["ArrowUp"; "ArrowLeft"; "ArrowDown"]%string
              started_reachable) as [_ [_ [Hd [Hn [Hc _]]]]].
  split; [exact Hd |]. split; [exact Hn | exact Hc].
Defined.

(** ** The high score *)

(** C7.  A game over sets the high score to the score, and stores it, when
    the score is strictly greater, and leaves both alone otherwise; the
    session that follows starts from there, no tick and no key press ever
    lowers the high score, and in every state the page can reach the stored
    entry spells the high score in memory (or is absent with a high score
    of 0). *)
Theorem high_score_ratchet (depth : nat) (w w1 w' : World) :
  handleGameOver_with Ok w = Ok w1 ->
  gameLoop depth w1 = Ok w' ->
  handleGameOver depth w = Ok w'
  /\ highScore w1 = (if score w >? highScore w then score w else highScore w)
  /\ localStorage w1
     = (if score w >? highScore w then Some (score w) else localStorage w)
  /\ highScore w <= highScore w1 <= highScore w'
  /\ (forall d v v', gameLoop d v = Ok v' -> highScore v <= highScore v')
  /\ (forall key v, highScore (keydown key v) = highScore v
                    /\ localStorage (keydown key v) = localStorage v)
  /\ (forall v, reachable v -> store_ok v).
Proof.
  intros Hover Hloop.
  split.
  { unfold handleGameOver. rewrite handleGameOver_with_bind, Hover. exact Hloop. }
  destruct (highScore_over _ _ Hover) as [Hh Hs].
  split; [exact Hh |]. split; [exact Hs |].
  split.
  { split; [exact (highScore_over_le _ _ Hover)
           | exact (highScore_gameLoop_le _ _ _ Hloop)]. }
  split; [exact highScore_gameLoop_le |].
  split; [| exact store_ok_reachable].
  intros key v.
  destruct (keydown_cases key v) as [-> | [d [_ [_ ->]]]]; split; reflexivity.
Qed.

(** Score 7 at game over with 5 stored: the high score becomes 7 and is
    stored, and the next session keeps it. *)
Lemma high_score_ratchet_witness :
  score (commit coiled) = 7
  /\ highScore (commit coiled) = 5
  /\ handleGameOver 1 (commit coiled) = Ok restarted
  /\ highScore ended = 7
  /\ localStorage ended = Some 7
  /\ 5 <= highScore ended <= highScore restarted.
Proof.
  assert (Hover : handleGameOver_with Ok (commit coiled) = Ok ended)
    by (vm_compute; reflexivity).
  assert (Hloop : gameLoop 1 ended = Ok restarted) by (vm_compute; reflexivity).
  destruct (high_score_ratchet 1 (commit coiled) ended restarted Hover Hloop)
    as [Hall [Hh [Hs [Hle _]]]].
  split; [reflexivity |]. split; [reflexivity |].
  split; [exact Hall |]. split; [exact Hh |]. split; [exact Hs | exact Hle].
Defined.

(** ** The snake and the apple *)

(** C8.  In every state the page can reach the snake has a cell and no cell
    twice: [resetGame] starts the session with the single cell (3, 1) and
    every tick keeps the two properties. *)
Theorem body_invariant (w : World) :
  reachable w ->
  snake w <> []
  /\ NoDup (snake w)
  /\ (forall v v1, resetGame_with Ok v = Ok v1 -> snake v1 = [mkPoint 3 1])
  /\ (forall depth v v',
        snake v <> [] /\ NoDup (snake v) ->
        gameLoop depth v = Ok v' ->
        snake v' <> [] /\ NoDup (snake v')).
Proof.
  intros Hr. destruct (body_ok_reachable w Hr) as [Hne Hnd].
  split; [exact Hne |]. split; [exact Hnd |].
  split.
  - intros v v1 H. exact (fresh_snake _ _ (resetGame_with_fresh _ _ H)).
  - intros depth v v'. exact (body_ok_gameLoop depth v v').
Qed.

(** After the crash into the top wall the new session has its one cell. *)
Lemma body_invariant_witness :
  snake crashed <> [] /\ NoDup (snake crashed).
Proof.
  destruct (body_invariant crashed crashed_reachable) as [Hne [Hnd _]].
  split; [exact Hne | exact Hnd].
Defined.

(** C9.  Whenever [placeApple] returns, whatever the random draws were, the
    apple it leaves is on no cell of the snake, which it does not touch;
    hence in every state the page can reach the apple is on no cell of the
    snake. *)
Theorem apple_off_snake :
  (forall w w', placeApple w = Ok w' ->
     snake w' = snake w /\ ~ In (apple w') (snake w'))
  /\ (forall depth v v',
        ~ In (apple v) (snake v) -> gameLoop depth v = Ok v' ->
        ~ In (apple v') (snake v'))
  /\ (forall v, reachable v -> ~ In (apple v) (snake v)).
Proof.
  split; [| split].
  - intros w w' H. apply placeApple_inv in H.
    destruct H as [p [rest [_ [-> Hfree]]]]. split; [reflexivity | exact Hfree].
  - exact apple_free_gameLoop.
  - exact apple_free_reachable.
Qed.

(** With the snake on (4, 1) and (5, 1) and the draws 0.25, 0.05, 0.5, 0.5
    the cell (5, 1) is refused and the apple lands on (10, 10). *)
Lemma apple_off_snake_witness :
  placeApple (set_snake [mkPoint 5 1; mkPoint 4 1] feeding)
  = Ok (set_random [] (set_apple (mkPoint 10 10)
                        (set_snake [mkPoint 5 1; mkPoint 4 1] feeding)))
  /\ ~ In (mkPoint 10 10) [mkPoint 5 1; mkPoint 4 1]
  /\ ~ In (apple crashed) (snake crashed).
Proof.
  assert (Hplace : placeApple (set_snake [mkPoint 5 1; mkPoint 4 1] feeding)
                   = Ok (set_random [] (set_apple (mkPoint 10 10)
                           (set_snake [mkPoint 5 1; mkPoint 4 1] feeding))))
    by reflexivity.
  destruct apple_off_snake as [Hp [_ Hr]].
  split; [exact Hplace |].
  split; [exact (proj2 (Hp _ _ Hplace)) | exact (Hr crashed crashed_reachable)].
Defined.

(** ** The timer loop *)

(** C2.  A tick that ends in a game over leaves two timers pending: the one
    armed by the [gameLoop] that [resetGame] started, and the one armed by
    the [gameLoop] that was running the tick, which goes on after [update]
    returns.  [resetGame] cancelled at most the handle in
    [gameLoopTimeout]; both survivors re-arm themselves when they fire. *)
Theorem game_over_leaves_two_timers (depth : nat) (w w' : World) (head : Point) :
  prospective w = Some head ->
  collision head (commit w) = true ->
  gameLoop depth w = Ok w' ->
  exists older h delay1 delay2,
    timers w' = older ++ [(h, delay1); (S h, delay2)]
    /\ gameLoopTimeout w' = Some (S h)
    /\ pending h w' = true
    /\ pending (S h) w' = true.
Proof.
  intros Hp Hc Hloop.
  apply gameLoop_rearmed in Hloop. destruct Hloop as [v [-> Hup]].
  rewrite update_with_eq, Hp, Hc, handleGameOver_with_bind in Hup.
  apply bind_Ok_inv in Hup. destruct Hup as [w1 [_ Hnested]].
  apply gameLoop_rearmed in Hnested. destruct Hnested as [v0 [-> _]].
  exists (timers v0), (nextHandle v0), (speed v0), (speed v0).
  assert (Ht : timers (rearm (draw (rearm (draw v0))))
               = timers v0 ++ [(nextHandle v0, speed v0); (S (nextHandle v0), speed v0)]).
  { destruct (rearm_timers (rearm (draw v0))) as [-> _].
    destruct (rearm_timers v0) as [-> [_ ->]].
    rewrite <- app_assoc. reflexivity. }
  split; [exact Ht |]. split; [reflexivity |].
  unfold pending. rewrite Ht, !existsb_app. cbn [existsb fst].
  rewrite !Nat.eqb_refl, !orb_true_r. split; reflexivity.
Qed.

(** The page is loaded, the player presses the up arrow, the timer fires
    twice: the second tick leaves the board at (4, -1), and where one timer
    was pending before it, handles 3 and 4 are pending after it. *)
Lemma game_over_leaves_two_timers_witness :
  reachable climbed
  /\ timers climbed = [(2%nat, 200)]
  /\ timeout 2 2 climbed = Ok crashed
  /\ reachable crashed
  /\ timers crashed = [(3%nat, 200); (4%nat, 200)]
  /\ exists older h delay1 delay2,
       timers crashed = older ++ [(h, delay1); (S h, delay2)]
       /\ gameLoopTimeout crashed = Some (S h)
       /\ pending h crashed = true
       /\ pending (S h) crashed = true.
Proof.
  split.
  { apply (reach_timeout 1 1 turned); [| exact climbed_timeout].
    apply reach_keydown. exact started_reachable. }
  split; [reflexivity |]. split; [exact crashed_timeout |].
  split; [exact crashed_reachable |]. split; [reflexivity |].
  apply (game_over_leaves_two_timers 2 (clearTimeout 2 climbed) crashed
           (mkPoint 4 (-1)));
    [reflexivity | reflexivity | vm_compute; reflexivity].
Defined.


(** ** The board *)

Lemma Qle_bool_cells (size a : Z) :
  Qle_bool (inject_Z size / inject_Z CONFIG.gridSize) (inject_Z a) = true
  <-> size <= a * CONFIG.gridSize.
Proof.
  rewrite Qle_bool_iff. unfold Qle, Qdiv, Qmult, Qinv, inject_Z, CONFIG.gridSize.
  simpl. lia.
Qed.

Lemma Qle_bool_cells_false (size a : Z) :
  Qle_bool (inject_Z size / inject_Z CONFIG.gridSize) (inject_Z a) = false
  <-> a * CONFIG.gridSize < size.
Proof.
  pose proof (Qle_bool_cells size a) as H.
  destruct (Qle_bool _ _); split; intros H'; try discriminate; try reflexivity.
  - assert (size <= a * CONFIG.gridSize) by (apply H; reflexivity). lia.
  - destruct (Z_lt_le_dec (a * CONFIG.gridSize) size) as [Hlt | Hle];
      [exact Hlt | apply H in Hle; discriminate].
Qed.

(** The collision test, with the divisions cleared. *)
Lemma collision_false_on_board (head : Point) (w : World) :
  collision head w = false <-> on_board w head /\ ~ In head (snake w).
Proof.
  unfold collision, on_board, columns, rows.
  rewrite !orb_false_iff, !Z.ltb_ge, !Qle_bool_cells_false.
  rewrite <- (checkSelfCollision_In head w).
  destruct (checkSelfCollision head w); split.
  - intros [_ H]. discriminate.
  - intros [_ H]. exfalso. apply H. reflexivity.
  - intros [[[[Hx Hw] Hy] Hh] _]. repeat split; first [assumption | discriminate].
  - intros [[Hx [Hw [Hy Hh]]] _]. repeat split; assumption.
Qed.

Lemma on_board_same_canvas (w v : World) (p : Point) :
  canvasWidth v = canvasWidth w -> canvasHeight v = canvasHeight w ->
  on_board w p -> on_board v p.
Proof. unfold on_board. intros -> ->. exact (fun H => H). Qed.

Lemma resetGame_with_board (w w1 : World) :
  resetGame_with Ok w = Ok w1 ->
  canvasWidth w1 = canvasWidth w /\ canvasHeight w1 = canvasHeight w
  /\ isPaused w1 = false
  /\ exists p rest,
       placeApple_loop [mkPoint 3 1] (random w) (columns w) (rows w) = Ok (p, rest)
       /\ apple w1 = p /\ random w1 = rest.
Proof.
  unfold resetGame_with. intros H.
  apply bind_Ok_inv in H. destruct H as [wa [Hplace Hw1]].
  apply placeApple_inv in Hplace.
  destruct Hplace as [p [rest [Hloop [-> _]]]].
  destruct (gameLoopTimeout _) as [[|h]|]; injection Hw1 as <-;
    (repeat (split; [reflexivity |])); exists p, rest;
    (split; [exact Hloop | split; reflexivity]).
Qed.

Lemma handleGameOver_with_board (w w1 : World) :
  handleGameOver_with Ok w = Ok w1 ->
  canvasWidth w1 = canvasWidth w /\ canvasHeight w1 = canvasHeight w
  /\ isPaused w1 = false
  /\ exists p rest,
       placeApple_loop [mkPoint 3 1] (random w) (columns w) (rows w) = Ok (p, rest)
       /\ apple w1 = p /\ random w1 = rest.
Proof.
  rewrite handleGameOver_with_recorded. intros H.
  apply resetGame_with_board in H. unfold recorded in H.
  destruct (score w >? highScore w); exact H.
Qed.

Lemma at_start_fresh (w w1 : World) : fresh_session w w1 -> at_start w1.
Proof.
  intros F. split; [exact (fresh_snake _ _ F) | exact (fresh_nextDirection _ _ F)].
Qed.

Lemma update_move_canvas (loop : World -> result World) (w w' : World) (head : Point) :
  prospective w = Some head -> collision head (commit w) = false ->
  update_with loop w = Ok w' ->
  canvasWidth w' = canvasWidth w /\ canvasHeight w' = canvasHeight w
  /\ isPaused w' = isPaused w.
Proof.
  intros Hp Hc Hup.
  destruct (update_move_inv _ _ _ _ Hp Hc Hup) as [[_ [p [rest [_ ->]]]] | [_ ->]].
  - unfold increaseDifficulty.
    destruct (speed _ >? CONFIG.minSpeed); repeat split; reflexivity.
  - repeat split; reflexivity.
Qed.

Lemma gameLoop_canvas (depth : nat) (w w' : World) :
  gameLoop depth w = Ok w' ->
  canvasWidth w' = canvasWidth w /\ canvasHeight w' = canvasHeight w.
Proof.
  intros H.
  refine (gameLoop_inv
            (fun v => canvasWidth v = canvasWidth w /\ canvasHeight v = canvasHeight w)
            _ _ _ depth w w' _ H).
  - intros loop v v' head [Hw Hh] Hp Hc Hup.
    destruct (update_move_canvas _ _ _ _ Hp Hc Hup) as [-> [-> _]].
    split; assumption.
  - intros v v1 [Hw Hh] Hover.
    destruct (handleGameOver_with_board _ _ Hover) as [-> [-> _]].
    split; assumption.
  - intros v Hv. exact Hv.
  - split; reflexivity.
Qed.

(** The first move of a session is from (3, 1) to (4, 1): if that cell is on
    the board, so is the starting cell. *)
Lemma start_on_board (w : World) :
  on_board w (mkPoint 4 1) -> on_board w (mkPoint 3 1).
Proof. unfold on_board, CONFIG.gridSize. simpl. lia. Qed.

Lemma board_move (loop : World -> result World) (w w' : World) (head : Point) :
  Forall (on_board w) (snake w) \/ at_start w ->
  prospective w = Some head -> collision head (commit w) = false ->
  update_with loop w = Ok w' ->
  Forall (on_board w') (snake w').
Proof.
  intros Hw Hp Hc Hup.
  assert (Hhead : on_board w head)
    by exact (proj1 (proj1 (collision_false_on_board head (commit w)) Hc)).
  assert (Hbody : Forall (on_board w) (snake w)).
  { destruct Hw as [H | [Hs Hn]]; [exact H |].
    unfold prospective in Hp. rewrite Hs, Hn in Hp. injection Hp as <-.
    rewrite Hs. constructor; [| constructor].
    apply start_on_board. exact Hhead. }
  destruct (update_move_canvas _ _ _ _ Hp Hc Hup) as [Hcw [Hch _]].
  assert (Hall : Forall (on_board w') (head :: snake w)).
  { apply Forall_forall. intros q Hq.
    apply (on_board_same_canvas w w' q Hcw Hch).
    destruct Hq as [<- | Hq]; [exact Hhead |].
    exact (proj1 (Forall_forall _ _) Hbody q Hq). }
  destruct (update_move_inv _ _ _ _ Hp Hc Hup) as [[_ [p [rest [_ Hw']]]] | [_ Hw']].
  - assert (Hs : snake w' = head :: snake w).
    { rewrite Hw'. unfold increaseDifficulty.
      destruct (speed _ >? CONFIG.minSpeed); reflexivity. }
    rewrite Hs. exact Hall.
  - assert (Hs : snake w' = removelast (head :: snake w)) by (rewrite Hw'; reflexivity).
    rewrite Hs. apply Forall_forall. intros q Hq. apply In_removelast in Hq.
    exact (proj1 (Forall_forall _ _) Hall q Hq).
Qed.

Lemma board_gameLoop :
  forall depth w w',
    Forall (on_board w) (snake w) \/ at_start w ->
    gameLoop depth w = Ok w' ->
    Forall (on_board w') (snake w').
Proof.
  induction depth as [|depth IH]; simpl; intros w w' Hw H; [discriminate |].
  apply bind_Ok_inv in H. destruct H as [v [Hup Hw']]. injection Hw' as <-.
  change (Forall (on_board v) (snake v)).
  destruct (prospective w) as [head|] eqn:Hp.
  - destruct (collision head (commit w)) eqn:Hc.
    + rewrite update_with_eq, Hp, Hc, handleGameOver_with_bind in Hup.
      apply bind_Ok_inv in Hup. destruct Hup as [w1 [Hover Hnested]].
      apply (IH w1 v); [right | exact Hnested].
      exact (at_start_fresh _ _ (handleGameOver_with_fresh _ _ Hover)).
    + exact (board_move _ _ _ _ Hw Hp Hc Hup).
  - rewrite update_with_eq, Hp in Hup. discriminate.
Qed.

Lemma board_reachable (w : World) :
  reachable w -> Forall (on_board w) (snake w).
Proof.
  induction 1 as [width height stored draws depth w Hnew
                 | key w _ IH | h depth w w' _ IH Hfire].
  - unfold constructor, resetGame in Hnew. rewrite resetGame_with_bind in Hnew.
    apply bind_Ok_inv in Hnew. destruct Hnew as [w1 [Hreset Hloop]].
    apply (board_gameLoop depth w1 w); [right | exact Hloop].
    exact (at_start_fresh _ _ (resetGame_with_fresh _ _ Hreset)).
  - destruct (keydown_cases key w) as [-> | [d [_ [_ ->]]]]; exact IH.
  - unfold timeout in Hfire. destruct (pending h w).
    + apply (board_gameLoop depth (clearTimeout h w) w'); [left; exact IH | exact Hfire].
    + injection Hfire as <-. exact IH.
Qed.

(** X1.  A prospective head passes the collision test of [update] exactly
    when it is a cell of the board (the comparisons with
    [canvas.width / gridSize] and [canvas.height / gridSize] amount to
    [20 x < width] and [20 y < height]) that the snake does not occupy. *)
Theorem collision_test_iff (head : Point) (w : World) :
  collision head w = false <-> on_board w head /\ ~ In head (snake w).
Proof. exact (collision_false_on_board head w). Qed.

(** X2.  In every state the page can reach, every cell of the snake is on
    the board, so the canvas has a positive width and height. *)
Theorem snake_on_board (w : World) :
  reachable w ->
  Forall (on_board w) (snake w) /\ 0 < canvasWidth w /\ 0 < canvasHeight w.
Proof.
  intros Hr. pose proof (board_reachable w Hr) as Hb.
  split; [exact Hb |].
  destruct (body_ok_reachable w Hr) as [Hne _].
  destruct (snake w) as [|s0 body]; [contradiction Hne; reflexivity |].
  inversion Hb as [|? ? Hs0 _]; subst.
  unfold on_board, CONFIG.gridSize in Hs0. lia.
Qed.

(** After the crash into the top wall the new snake is back on the board. *)
Lemma snake_on_board_witness :
  Forall (on_board crashed) (snake crashed)
  /\ 0 < canvasWidth crashed /\ 0 < canvasHeight crashed.
Proof. exact (snake_on_board crashed crashed_reachable). Defined.

Lemma canvas_positive (w : World) :
  reachable w -> 0 < canvasWidth w /\ 0 < canvasHeight w.
Proof.
  intros Hr. pose proof (board_reachable w Hr) as Hb.
  destruct (body_ok_reachable w Hr) as [Hne _].
  destruct (snake w) as [|s0 body]; [contradiction Hne; reflexivity |].
  inversion Hb as [|? ? Hs0 _]; subst.
  unfold on_board, CONFIG.gridSize in Hs0. lia.
Qed.

(** On a canvas where (4, 1) is off the board the first tick of a session
    is itself a game over, which starts the next session, and so on. *)
Lemma cramped_handleGameOver :
  forall depth w w',
    ~ on_board w (mkPoint 4 1) -> handleGameOver depth w <> Ok w'.
Proof.
  induction depth as [|depth IH]; intros w w' Hoff H;
    unfold handleGameOver in H; rewrite handleGameOver_with_bind in H;
    apply bind_Ok_inv in H; destruct H as [w1 [Hover Hloop]];
    simpl in Hloop; [discriminate |].
  apply bind_Ok_inv in Hloop. destruct Hloop as [v [Hup _]].
  pose proof (handleGameOver_with_fresh _ _ Hover) as F.
  destruct (handleGameOver_with_board _ _ Hover) as [Hcw [Hch _]].
  assert (Hp : prospective w1 = Some (mkPoint 4 1)).
  { unfold prospective.
    rewrite (fresh_snake _ _ F), (fresh_nextDirection _ _ F). reflexivity. }
  assert (Hoff1 : ~ on_board (commit w1) (mkPoint 4 1)).
  { intros Hon. apply Hoff.
    apply (on_board_same_canvas (commit w1) w); [| | exact Hon].
    - symmetry. exact Hcw.
    - symmetry. exact Hch. }
  assert (Hc : collision (mkPoint 4 1) (commit w1) = true).
  { destruct (collision (mkPoint 4 1) (commit w1)) eqn:Hc; [reflexivity |].
    exfalso. apply Hoff1. exact (proj1 (proj1 (collision_false_on_board _ _) Hc)). }
  rewrite update_with_eq, Hp, Hc in Hup.
  exact (IH (commit w1) v Hoff1 Hup).
Qed.

(** X3.  On a canvas at most 80 pixels wide or at most 20 pixels high the
    cell (4, 1) is off the board, and neither [handleGameOver] nor the
    constructor ever returns, however many nested calls and random draws are
    allowed: every session ends on its first tick and starts the next one
    from inside that tick. *)
Theorem cramped_canvas_never_returns
  (width height : Z) (stored : option Z) (draws : list Q) (depth : nat) :
  width <= 80 \/ height <= 20 ->
  (forall w', constructor width height stored draws depth <> Ok w')
  /\ (forall w w', canvasWidth w = width -> canvasHeight w = height ->
        handleGameOver depth w <> Ok w').
Proof.
  intros Hsmall.
  assert (Hoff : forall w, canvasWidth w = width -> canvasHeight w = height ->
                           ~ on_board w (mkPoint 4 1)).
  { intros w <- <-. unfold on_board, CONFIG.gridSize. simpl. lia. }
  split.
  - intros w' Hnew. unfold constructor, resetGame in Hnew.
    rewrite resetGame_with_bind in Hnew.
    apply bind_Ok_inv in Hnew. destruct Hnew as [w1 [Hreset Hloop]].
    destruct depth as [|depth]; simpl in Hloop; [discriminate |].
    apply bind_Ok_inv in Hloop. destruct Hloop as [v [Hup _]].
    pose proof (resetGame_with_fresh _ _ Hreset) as F.
    destruct (resetGame_with_board _ _ Hreset) as [Hcw [Hch _]].
    assert (Hp : prospective w1 = Some (mkPoint 4 1)).
    { unfold prospective.
      rewrite (fresh_snake _ _ F), (fresh_nextDirection _ _ F). reflexivity. }
    assert (Hoff1 : ~ on_board (commit w1) (mkPoint 4 1)).
    { apply Hoff; [exact Hcw | exact Hch]. }
    assert (Hc : collision (mkPoint 4 1) (commit w1) = true).
    { destruct (collision (mkPoint 4 1) (commit w1)) eqn:Hc; [reflexivity |].
      exfalso. apply Hoff1. exact (proj1 (proj1 (collision_false_on_board _ _) Hc)). }
    rewrite update_with_eq, Hp, Hc in Hup.
    exact (cramped_handleGameOver depth (commit w1) v Hoff1 Hup).
  - intros w w' Hcw Hch. apply cramped_handleGameOver. apply Hoff; assumption.
Qed.

(** A canvas of 80 by 400 pixels has four columns: the page never loads. *)
Lemma cramped_canvas_never_returns_witness :
  match constructor 80 400 None [1#2; 1#2; 1#4; 3#4] 5 with
  | Ok _ => False
  | _ => True
  end.
Proof.
  destruct (constructor 80 400 None [1#2; 1#2; 1#4; 3#4] 5) as [w'| |] eqn:E;
    [| exact I | exact I].
  assert (Hsmall : 80 <= 80 \/ 400 <= 20) by (left; lia).
  apply (proj1 (cramped_canvas_never_returns 80 400 None [1#2; 1#2; 1#4; 3#4] 5
                  Hsmall) w').
  exact E.
Defined.

(** ** More on the apple *)

(** ** Doubles *)

Section Doubles.
Local Open Scope Q_scope.

Lemma pow2_pos (e : Z) : 0 < pow2 e.
Proof. apply Qpower_0_lt. reflexivity. Qed.

Lemma pow2_add (a b : Z) : pow2 (a + b) == pow2 a * pow2 b.
Proof. apply Qpower_plus. discriminate. Qed.

Lemma pow2_le (a b : Z) : (a <= b)%Z -> pow2 a <= pow2 b.
Proof. intros H. apply Qpower_le_compat_l; [exact H | discriminate]. Qed.

Lemma pow2_lt (a b : Z) : (a < b)%Z -> pow2 a < pow2 b.
Proof. intros H. apply Qpower_lt_compat_l; [exact H | reflexivity]. Qed.

Lemma pow2_lt_inv (a b : Z) : pow2 a < pow2 b -> (a < b)%Z.
Proof. intros H. apply (Qpower_lt_compat_l_inv 2); [exact H | reflexivity]. Qed.

Lemma pow2_inject (n : Z) : (0 <= n)%Z -> pow2 n == inject_Z (2 ^ n).
Proof. intros H. unfold pow2. rewrite Zpower_Qpower by exact H. reflexivity. Qed.

Lemma rint_floor (x : Q) : rint x = Qfloor x \/ rint x = (Qfloor x + 1)%Z.
Proof.
  unfold rint. destruct (Qcompare _ _); [destruct (Z.even _) | |]; auto.
Qed.

Lemma rint_half (x : Q) :
  inject_Z (rint x) - (1#2) <= x /\ x <= inject_Z (rint x) + (1#2).
Proof.
  pose proof (Qfloor_le x) as Hlo. pose proof (Qlt_floor x) as Hhi.
  rewrite inject_Z_plus in Hhi. change (inject_Z 1) with 1 in Hhi.
  unfold rint. destruct (Qcompare (x - inject_Z (Qfloor x)) (1#2)) eqn:E.
  - apply Qeq_alt in E.
    destruct (Z.even (Qfloor x));
      [| rewrite inject_Z_plus; change (inject_Z 1) with 1]; split; lra.
  - apply Qlt_alt in E. split; lra.
  - apply Qgt_alt in E. rewrite inject_Z_plus. change (inject_Z 1) with 1.
    split; lra.
Qed.

Lemma rint_ge (x : Q) (k : Z) : inject_Z k <= x -> (k <= rint x)%Z.
Proof.
  intros H. apply Qfloor_resp_le in H. rewrite Qfloor_Z in H.
  destruct (rint_floor x) as [-> | ->]; lia.
Qed.

Lemma rint_le (x : Q) (k : Z) : x <= inject_Z k -> (rint x <= k)%Z.
Proof.
  intros H.
  destruct (Qlt_le_dec x (inject_Z k)) as [Hlt | Hge].
  - assert (Hf : (Qfloor x < k)%Z).
    { destruct (Z_lt_le_dec (Qfloor x) k) as [Hl | Hg]; [exact Hl |].
      exfalso. pose proof (Qfloor_le x) as Hlo.
      rewrite Zle_Qle in Hg. lra. }
    destruct (rint_floor x) as [-> | ->]; lia.
  - assert (Hx : x == inject_Z k) by lra.
    assert (Hf : Qfloor x = k) by (rewrite Hx; apply Qfloor_Z).
    unfold rint. rewrite Hf.
    assert (E : Qcompare (x - inject_Z k) (1#2) = Lt) by (apply (proj1 (Qlt_alt _ _)); lra).
    rewrite E. lia.
Qed.

Lemma Qmake_div (a : Z) (b : positive) : a # b == inject_Z a / inject_Z (Zpos b).
Proof. apply Qmake_Qdiv. Qed.

Lemma div_lt_div (a b c d : Q) :
  0 < b -> 0 < d -> a * d < c * b -> a / b < c / d.
Proof.
  intros Hb Hd H.
  apply Qlt_shift_div_l; [exact Hd |].
  assert (E : a / b * d == (a * d) / b) by (field; lra).
  rewrite E. apply Qlt_shift_div_r; [exact Hb | exact H].
Qed.

Lemma log2_brackets (q : Q) :
  0 < q ->
  pow2 (Z.log2 (Qnum q) - Z.log2 (Zpos (Qden q)) - 1) < q
  /\ q < pow2 (Z.log2 (Qnum q) - Z.log2 (Zpos (Qden q)) + 1).
Proof.
  destruct q as [a b]. intros Hq. cbn [Qnum Qden].
  assert (Ha : (0 < a)%Z).
  { unfold Qlt in Hq. simpl in Hq. lia. }
  destruct (Z.log2_spec a Ha) as [Ha1 Ha2].
  destruct (Z.log2_spec (Zpos b) (Pos2Z.is_pos b)) as [Hb1 Hb2].
  pose proof (Z.log2_nonneg a) as Hla. pose proof (Z.log2_nonneg (Zpos b)) as Hlb.
  set (la := Z.log2 a) in *. set (lb := Z.log2 (Zpos b)) in *.
  assert (Epa : pow2 la == inject_Z (2 ^ la)) by (apply pow2_inject; exact Hla).
  assert (Epb : pow2 lb == inject_Z (2 ^ lb)) by (apply pow2_inject; exact Hlb).
  assert (Hpb : 0 < pow2 lb) by apply pow2_pos.
  assert (Hpa : 0 < pow2 la) by apply pow2_pos.
  assert (E1 : pow2 (la - lb - 1) == pow2 la / (2 * pow2 lb)).
  { replace (la - lb - 1)%Z with (la + (- (lb + 1)))%Z by ring.
    rewrite pow2_add. unfold pow2 at 2. rewrite Qpower_opp.
    change (2 ^ (lb + 1)) with (pow2 (lb + 1)). rewrite pow2_add.
    change (pow2 1) with 2. field. lra. }
  assert (E2 : pow2 (la - lb + 1) == 2 * pow2 la / pow2 lb).
  { replace (la - lb + 1)%Z with ((la + 1) + (- lb))%Z by ring.
    rewrite pow2_add. unfold pow2 at 2. rewrite Qpower_opp.
    change (2 ^ lb) with (pow2 lb). rewrite pow2_add.
    change (pow2 1) with 2. field. lra. }
  rewrite E1, E2, Epa, Epb.
  rewrite Z.pow_succ_r in Ha2, Hb2 by assumption.
  rewrite (Qmake_div a b).
  assert (HbQ : 0 < inject_Z (Zpos b)) by (rewrite <- (Zlt_Qlt 0); lia).
  assert (H2b : 0 < inject_Z (2 ^ lb)).
  { rewrite <- Epb. exact Hpb. }
  rewrite Zle_Qle in Ha1, Hb1. rewrite Zlt_Qlt in Ha2, Hb2.
  rewrite inject_Z_mult in Ha2, Hb2. change (inject_Z 2) with 2 in Ha2, Hb2.
  set (A := inject_Z a) in *. set (B := inject_Z (Zpos b)) in *.
  set (PA := inject_Z (2 ^ la)) in *. set (PB := inject_Z (2 ^ lb)) in *.
  split.
  - apply div_lt_div; [lra | exact HbQ |].
    assert (PA * B < PA * (2 * PB)) by (apply Qmult_lt_l; lra).
    assert (PA * (2 * PB) <= A * (2 * PB)) by (apply Qmult_le_compat_r; lra).
    lra.
  - apply div_lt_div; [exact HbQ | exact H2b |].
    assert (A * PB <= A * B) by (apply Qmult_le_l; lra).
    assert (A * B < 2 * PA * B) by (apply Qmult_lt_compat_r; lra).
    lra.
Qed.

Lemma exponent_spec (q : Q) :
  0 < q ->
  (-1074 <= exponent q)%Z
  /\ q / pow2 (exponent q) < pow2 53
  /\ ((-1074 < exponent q)%Z -> pow2 52 <= q / pow2 (exponent q)).
Proof.
  intros Hq. destruct (log2_brackets q Hq) as [Hlo Hhi].
  unfold exponent.
  set (l := (Z.log2 (Qnum q) - Z.log2 (Zpos (Qden q)))%Z) in *.
  set (E := if Qle_bool (pow2 l) q then l else (l - 1)%Z).
  assert (HE : pow2 E <= q /\ q < pow2 (E + 1)).
  { unfold E. destruct (Qle_bool (pow2 l) q) eqn:Hb.
    - apply Qle_bool_iff in Hb. split; [exact Hb | exact Hhi].
    - split; [apply Qlt_le_weak; exact Hlo |].
      replace (l - 1 + 1)%Z with l by ring.
      destruct (Qlt_le_dec q (pow2 l)) as [H | H]; [exact H |].
      apply Qle_bool_iff in H. congruence. }
  destruct HE as [HE1 HE2].
  set (e := Z.max (E - 52) (-1074)).
  assert (Hpe : 0 < pow2 e) by apply pow2_pos.
  split; [unfold e; lia |]. split.
  - apply Qlt_shift_div_r; [exact Hpe |].
    rewrite <- pow2_add.
    apply Qlt_le_trans with (pow2 (E + 1)); [exact HE2 |].
    apply pow2_le. unfold e. lia.
  - intros He. apply Qle_shift_div_l; [exact Hpe |].
    rewrite <- pow2_add.
    apply Qle_trans with (pow2 E); [| exact HE1].
    apply pow2_le. unfold e in *. lia.
Qed.

Lemma binary64_pos_form (q : Q) :
  0 < q ->
  exists n e,
    binary64_pos q == inject_Z n * pow2 e
    /\ (0 <= n <= 2 ^ 53)%Z /\ (-1074 <= e)%Z
    /\ n = rint (q / pow2 e)
    /\ q / pow2 e < pow2 53
    /\ ((-1074 < e)%Z -> pow2 52 <= q / pow2 e /\ (2 ^ 52 <= n)%Z).
Proof.
  intros Hq. destruct (exponent_spec q Hq) as [He [Hhi Hlo]].
  exists (rint (q / pow2 (exponent q))), (exponent q).
  assert (Hpe : 0 < pow2 (exponent q)) by apply pow2_pos.
  assert (Hx : 0 <= q / pow2 (exponent q)).
  { apply Qle_shift_div_l; [exact Hpe | lra]. }
  split; [reflexivity |]. split.
  - split.
    + apply rint_ge. exact Hx.
    + apply rint_le. rewrite <- pow2_inject by lia. apply Qlt_le_weak. exact Hhi.
  - split; [exact He |]. split; [reflexivity |]. split; [exact Hhi |].
    intros Hn. split; [exact (Hlo Hn) |].
    apply rint_ge. rewrite <- pow2_inject by lia. exact (Hlo Hn).
Qed.

(** A double below the rounded value lies at or below the midpoint's
    mirror: the rounded value is the nearest double. *)
Lemma binary64_pos_mid (q d : Q) :
  0 < q -> double_pos d -> d < binary64_pos q -> d + binary64_pos q <= 2 * q.
Proof.
  intros Hq [m [e' [Hm [He' Hd]]]] Hlt.
  destruct (binary64_pos_form q Hq) as [n [e [Hf [Hn [He [Hr [Hhi Hlo]]]]]]].
  rewrite Hf in *. rewrite Hd in *. clear Hf Hd d.
  set (u := pow2 e) in *.
  assert (Hu : 0 < u) by apply pow2_pos.
  set (x := q / u) in *.
  assert (Hq' : q == x * u) by (unfold x; field; lra).
  destruct (rint_half x) as [Hh1 _]. rewrite <- Hr in Hh1.
  assert (Hnear : forall k : Z, (k < n)%Z -> inject_Z k * u + inject_Z n * u <= 2 * q).
  { intros k Hk.
    assert (Hk' : inject_Z k <= inject_Z n - 1).
    { assert (H1 : (k <= n - 1)%Z) by lia.
      rewrite Zle_Qle in H1. unfold Z.sub in H1.
      rewrite inject_Z_plus in H1. exact H1. }
    assert (Hsum : inject_Z k + inject_Z n <= 2 * x) by lra.
    assert (Hmul : (inject_Z k + inject_Z n) * u <= 2 * x * u)
      by (apply Qmult_le_compat_r; lra).
    rewrite Hq'. lra. }
  destruct (Z_le_gt_dec e e') as [Hee | Hee].
  - (* the other double is a multiple of [u] *)
    assert (Epow : pow2 e' == inject_Z (2 ^ (e' - e)) * u).
    { unfold u. rewrite <- pow2_inject by lia. rewrite <- pow2_add.
      replace (e' - e + e)%Z with e' by ring. reflexivity. }
    assert (Ed : inject_Z m * pow2 e' == inject_Z (m * 2 ^ (e' - e)) * u).
    { rewrite Epow, inject_Z_mult. ring. }
    rewrite Ed in *.
    apply Hnear.
    destruct (Z_lt_le_dec (m * 2 ^ (e' - e)) n) as [H | H]; [exact H |].
    exfalso. rewrite Zle_Qle in H.
    assert (inject_Z n * u <= inject_Z (m * 2 ^ (e' - e)) * u)
      by (apply Qmult_le_compat_r; lra).
    lra.
  - (* the other double is below the binade of [q] *)
    assert (He1 : (-1074 < e)%Z) by lia.
    destruct (Hlo He1) as [Hx52 Hn52].
    assert (Hdle : inject_Z m * pow2 e' <= pow2 52 * u).
    { apply Qle_trans with (pow2 53 * pow2 e').
      - apply Qmult_le_compat_r; [| apply Qlt_le_weak; apply pow2_pos].
        rewrite pow2_inject by lia. rewrite <- Zle_Qle. lia.
      - unfold u. rewrite <- !pow2_add. apply pow2_le. lia. }
    assert (E52 : pow2 52 == inject_Z (2 ^ 52)) by (apply pow2_inject; lia).
    destruct (Z_lt_le_dec (2 ^ 52) n) as [H | H].
    + pose proof (Hnear (2 ^ 52)%Z H) as Hk. rewrite <- E52 in Hk. lra.
    + assert (En : n = (2 ^ 52)%Z) by lia.
      assert (Hnu : inject_Z n * u <= q).
      { rewrite En, <- E52, Hq'. apply Qmult_le_compat_r; lra. }
      lra.
Qed.

Lemma binary64_of_pos (q : Q) : 0 < q -> binary64 q = binary64_pos q.
Proof.
  intros H. unfold binary64.
  rewrite (proj1 (Qgt_alt q 0) H). reflexivity.
Qed.

Lemma binary64_of_zero (q : Q) : q == 0 -> binary64 q = 0.
Proof.
  intros H. unfold binary64.
  rewrite (proj1 (Qeq_alt q 0) H). reflexivity.
Qed.

(** [Math.floor(r * t)] in doubles, for a double [r] of [0, 1) and a
    positive [t] that is not tiny: a natural number below [t]. *)
Lemma draw_cell_bounds (r t : Q) :
  0 <= r -> r <= 1 - pow2 (-53) -> pow2 (-1021) <= t ->
  (0 <= Qfloor (binary64 (r * binary64 t)))%Z
  /\ inject_Z (Qfloor (binary64 (r * binary64 t))) < t.
Proof.
  intros Hr0 Hr1 Ht.
  assert (Htpos : 0 < t).
  { apply Qlt_le_trans with (pow2 (-1021)); [apply pow2_pos | exact Ht]. }
  rewrite (binary64_of_pos t Htpos).
  destruct (binary64_pos_form t Htpos) as [nC [eC [HC [HnC [HeC [_ [HhiC HloC]]]]]]].
  set (C := binary64_pos t) in *.
  set (u := pow2 eC) in *.
  assert (Hu : 0 < u) by apply pow2_pos.
  assert (HeC1 : (-1074 < eC)%Z).
  { destruct (Z_lt_le_dec (-1074) eC) as [H | H]; [exact H |].
    exfalso. assert (E : eC = (-1074)%Z) by lia.
    assert (Hlt : t < pow2 53 * u).
    { assert (E' : t / u * u == t) by (field; lra).
      assert (t / u * u < pow2 53 * u) by (apply Qmult_lt_compat_r; assumption).
      lra. }
    unfold u in Hlt. rewrite <- pow2_add, E in Hlt.
    change (53 + -1074)%Z with (-1021)%Z in Hlt. lra. }
  destruct (HloC HeC1) as [_ HnC52].
  assert (E52 : inject_Z (2 ^ 52) == pow2 52) by (symmetry; apply pow2_inject; lia).
  assert (HC52 : pow2 52 * u <= C).
  { rewrite HC, <- E52. apply Qmult_le_compat_r; [| lra].
    rewrite <- Zle_Qle. exact HnC52. }
  assert (Hp52 : 0 < pow2 52) by apply pow2_pos.
  assert (HCpos : 0 < C).
  { apply Qlt_le_trans with (pow2 52 * u); [| exact HC52].
    apply Qmult_lt_0_compat; assumption. }
  assert (Hk : forall k : Z, (0 <= k)%Z -> inject_Z k < C -> double_pos (inject_Z k) ->
                             inject_Z k < t).
  { intros k Hk0 HkC Hdk.
    destruct (Qlt_le_dec (inject_Z k) t) as [H | H]; [exact H |].
    exfalso. pose proof (binary64_pos_mid t (inject_Z k) Htpos Hdk HkC) as Hmid.
    fold C in Hmid. lra. }
  destruct (Qlt_le_dec 0 r) as [Hrpos | Hrz].
  2: { assert (Eq0 : r * C == 0) by (assert (r == 0) by lra; nra).
       rewrite (binary64_of_zero _ Eq0). change (Qfloor 0) with 0%Z.
       split; [lia | exact Htpos]. }
  assert (Hq : 0 < r * C) by (apply Qmult_lt_0_compat; assumption).
  rewrite (binary64_of_pos _ Hq).
  destruct (binary64_pos_form _ Hq) as [nP [eP [HP [HnP [HeP _]]]]].
  set (P := binary64_pos (r * C)) in *.
  assert (HuP : 0 < pow2 eP) by apply pow2_pos.
  assert (HP0 : 0 <= P).
  { rewrite HP. apply Qmult_le_0_compat; [| lra].
    change 0 with (inject_Z 0). rewrite <- Zle_Qle. lia. }
  assert (Hqle : r * C <= C - pow2 (-53) * C).
  { assert (r * C <= (1 - pow2 (-53)) * C) by (apply Qmult_le_compat_r; lra).
    lra. }
  assert (HPC : P < C).
  { destruct (Qlt_le_dec P C) as [H | H]; [exact H |]. exfalso.
    assert (E53 : pow2 (-53) * pow2 52 == 1 # 2) by reflexivity.
    destruct (Z_lt_le_dec (2 ^ 52) nC) as [Hbig | Hsmall].
    - (* the double below [C] is [C - u] *)
      assert (Hd : double_pos (inject_Z (nC - 1) * u)).
      { exists (nC - 1)%Z, eC. repeat split; try lia; reflexivity. }
      assert (Ed : inject_Z (nC - 1) * u == C - u).
      { rewrite HC. unfold Z.sub. rewrite inject_Z_plus, inject_Z_opp.
        change (inject_Z 1) with 1. ring. }
      assert (HdP : inject_Z (nC - 1) * u < P) by lra.
      pose proof (binary64_pos_mid (r * C) _ Hq Hd HdP) as Hmid. fold P in Hmid.
      assert (HCb : (pow2 52 + 1) * u <= C).
      { rewrite HC. apply Qmult_le_compat_r; [| lra].
        rewrite <- E52. change 1 with (inject_Z 1). rewrite <- inject_Z_plus, <- Zle_Qle. lia. }
      assert (Hx : pow2 (-53) * ((pow2 52 + 1) * u) <= pow2 (-53) * C).
      { apply Qmult_le_l; [apply pow2_pos | exact HCb]. }
      assert (Ex : pow2 (-53) * ((pow2 52 + 1) * u) == (1 # 2) * u + pow2 (-53) * u).
      { rewrite <- E53. ring. }
      assert (0 < pow2 (-53) * u) by (apply Qmult_lt_0_compat; [apply pow2_pos | exact Hu]).
      lra.
    - (* [C] is a power of two: the double below is [C - u / 2] *)
      assert (EnC : nC = (2 ^ 52)%Z) by lia.
      assert (EC : C == pow2 52 * u) by (rewrite HC, EnC, E52; reflexivity).
      assert (Eu : pow2 (eC - 1) == (1 # 2) * u).
      { unfold u. replace (eC - 1)%Z with (eC + (-1))%Z by lia.
        rewrite pow2_add. change (pow2 (-1)) with (1 # 2). ring. }
      assert (Hd : double_pos (inject_Z (2 ^ 53 - 1) * pow2 (eC - 1))).
      { exists (2 ^ 53 - 1)%Z, (eC - 1)%Z. repeat split; try lia; reflexivity. }
      assert (Ed : inject_Z (2 ^ 53 - 1) * pow2 (eC - 1) == C - (1 # 2) * u).
      { rewrite Eu, EC. unfold Z.sub. rewrite inject_Z_plus, inject_Z_opp.
        assert (E53' : inject_Z (2 ^ 53) == 2 * pow2 52) by reflexivity.
        rewrite E53'. change (inject_Z 1) with 1. ring. }
      assert (HdP : inject_Z (2 ^ 53 - 1) * pow2 (eC - 1) < P) by lra.
      pose proof (binary64_pos_mid (r * C) _ Hq Hd HdP) as Hmid. fold P in Hmid.
      assert (Ex : pow2 (-53) * C == (1 # 2) * u).
      { rewrite EC, <- E53. ring. }
      lra. }
  split.
  - change 0%Z with (Qfloor 0). apply Qfloor_resp_le. exact HP0.
  - pose proof (Qfloor_le P) as Hfl.
    assert (Hk0 : (0 <= Qfloor P)%Z).
    { change 0%Z with (Qfloor 0). apply Qfloor_resp_le. exact HP0. }
    apply Hk; [exact Hk0 | lra |].
    destruct (Z_le_gt_dec 0 eP) as [HePpos | HePneg].
    + (* [P] is an integer *)
      assert (EP : P == inject_Z (nP * 2 ^ eP)).
      { rewrite HP, inject_Z_mult, <- pow2_inject by exact HePpos. reflexivity. }
      exists nP, eP. repeat split; try lia.
      rewrite EP, Qfloor_Z, inject_Z_mult, <- pow2_inject by exact HePpos. reflexivity.
    + (* [P] is at most [2^53] *)
      exists (Qfloor P), 0%Z. repeat split; try lia.
      * assert (HPle : P <= inject_Z (2 ^ 53)).
        { rewrite HP.
          assert (Hp1 : pow2 eP <= 1).
          { change 1 with (pow2 0). apply pow2_le. lia. }
          assert (Hn0 : 0 <= inject_Z nP).
          { change 0 with (inject_Z 0). rewrite <- Zle_Qle. lia. }
          assert (Hn53 : inject_Z nP <= inject_Z (2 ^ 53)).
          { rewrite <- Zle_Qle. lia. }
          assert (Hm : inject_Z nP * pow2 eP <= inject_Z nP * 1).
          { destruct (Qlt_le_dec 0 (inject_Z nP)) as [Hn | Hn].
            - apply Qmult_le_l; assumption.
            - assert (E0 : inject_Z nP == 0) by lra. rewrite E0. lra. }
          lra. }
        apply Qfloor_resp_le in HPle. rewrite Qfloor_Z in HPle. exact HPle.
      * change (pow2 0) with 1. ring.
Qed.

End Doubles.

Lemma unit_draw_cell (r : Q) (size : Z) :
  unit_draw r -> 0 < size ->
  0 <= cell r (inject_Z size / inject_Z CONFIG.gridSize)
  /\ cell r (inject_Z size / inject_Z CONFIG.gridSize) * CONFIG.gridSize < size.
Proof.
  intros [H0 H1] Hsize.
  set (t := (inject_Z size / inject_Z CONFIG.gridSize)%Q).
  assert (Ht : (pow2 (-1021) <= t)%Q).
  { apply Qle_trans with (1 # 20)%Q.
    - apply Qle_trans with (pow2 (-5)); [apply pow2_le; lia | discriminate].
    - unfold t, Qle, Qdiv, Qmult, Qinv, inject_Z, CONFIG.gridSize. simpl. lia. }
  destruct (draw_cell_bounds r t H0 H1 Ht) as [Hlow Hhigh].
  split; [exact Hlow |].
  revert Hhigh. unfold cell. generalize (Qfloor (binary64 (r * binary64 t))).
  intros k.
  unfold t, Qlt, Qdiv, Qmult, Qinv, inject_Z, CONFIG.gridSize. simpl. lia.
Qed.

Lemma placeApple_loop_on_board (body : list Point) (width height : Z) :
  0 < width -> 0 < height ->
  forall draws p rest,
    Forall unit_draw draws ->
    placeApple_loop body draws
      (inject_Z width / inject_Z CONFIG.gridSize)
      (inject_Z height / inject_Z CONFIG.gridSize) = Ok (p, rest) ->
    (0 <= x p /\ x p * CONFIG.gridSize < width
     /\ 0 <= y p /\ y p * CONFIG.gridSize < height)
    /\ Forall unit_draw rest.
Proof.
  intros Hw Hh.
  assert (Hboth : forall draws,
    (forall p rest, Forall unit_draw draws ->
       placeApple_loop body draws
         (inject_Z width / inject_Z CONFIG.gridSize)
         (inject_Z height / inject_Z CONFIG.gridSize) = Ok (p, rest) ->
       (0 <= x p /\ x p * CONFIG.gridSize < width
        /\ 0 <= y p /\ y p * CONFIG.gridSize < height)
       /\ Forall unit_draw rest)
    /\ (forall r p rest, Forall unit_draw (r :: draws) ->
          placeApple_loop body (r :: draws)
            (inject_Z width / inject_Z CONFIG.gridSize)
            (inject_Z height / inject_Z CONFIG.gridSize) = Ok (p, rest) ->
          (0 <= x p /\ x p * CONFIG.gridSize < width
           /\ 0 <= y p /\ y p * CONFIG.gridSize < height)
          /\ Forall unit_draw rest)).
  { induction draws as [|r2 draws [IH0 IH1]].
    - split; simpl; intros; discriminate.
    - split; [apply IH1 |].
      intros r1 p rest Hall. simpl.
      inversion Hall as [|? ? Hr1 Hall1]; subst.
      inversion Hall1 as [|? ? Hr2 Hall2]; subst.
      destruct (existsb _ body); simpl.
      + apply IH0. exact Hall2.
      + intros H. injection H as <- <-. split; [| exact Hall2].
        destruct (unit_draw_cell r1 width Hr1 Hw) as [Hx0 Hx1].
        destruct (unit_draw_cell r2 height Hr2 Hh) as [Hy0 Hy1].
        simpl. repeat split; assumption. }
  intros draws. apply (Hboth draws).
Qed.

Lemma placeApple_board (w w' : World) :
  0 < canvasWidth w -> 0 < canvasHeight w ->
  Forall unit_draw (random w) ->
  placeApple w = Ok w' ->
  on_board w' (apple w') /\ Forall unit_draw (random w')
  /\ canvasWidth w' = canvasWidth w /\ canvasHeight w' = canvasHeight w.
Proof.
  intros Hw Hh Hall H. apply placeApple_inv in H.
  destruct H as [p [rest [Hloop [-> _]]]].
  destruct (placeApple_loop_on_board (snake w) _ _ Hw Hh _ _ _ Hall Hloop)
    as [Hon Hrest].
  split; [exact Hon |]. split; [exact Hrest | split; reflexivity].
Qed.

(** X4.  With [Math.random()] in [0, 1) and a canvas of positive size, the
    cell [placeApple] returns is a cell of the board, and the draws left
    over are still in [0, 1). *)
Theorem placeApple_on_board (w w' : World) :
  0 < canvasWidth w -> 0 < canvasHeight w ->
  Forall unit_draw (random w) ->
  placeApple w = Ok w' ->
  on_board w' (apple w') /\ Forall unit_draw (random w').
Proof.
  intros Hw Hh Hall H.
  destruct (placeApple_board w w' Hw Hh Hall H) as [Hon [Hrest _]].
  split; assumption.
Qed.

(** On the 20 x 20 board the draws 0.25, 0.75 give the cell (5, 15). *)
Lemma placeApple_on_board_witness :
  on_board (returned (placeApple started) started)
    (apple (returned (placeApple started) started))
  /\ apple (returned (placeApple started) started) = mkPoint 5 15.
Proof.
  split; [| reflexivity].
  refine (proj1 (placeApple_on_board started _ _ _ _ _)).
  - reflexivity.
  - reflexivity.
  - repeat constructor; discriminate.
  - reflexivity.
Defined.

(** X5.  [placeApple] takes the first round of draws whose cell, computed
    in doubles, is off the snake: the rounds before it, all on the snake,
    are used up and the apple is put on that cell. *)
Theorem placeApple_first_free
  (w : World) (rounds : list (Q * Q)) (r1 r2 : Q) (rest : list Q) :
  random w = flat_map (fun rr => [fst rr; snd rr]) rounds ++ r1 :: r2 :: rest ->
  Forall (fun rr => In (mkPoint (cell (fst rr) (columns w))
                          (cell (snd rr) (rows w))) (snake w)) rounds ->
  ~ In (mkPoint (cell r1 (columns w)) (cell r2 (rows w))) (snake w) ->
  placeApple w
  = Ok (set_random rest
          (set_apple (mkPoint (cell r1 (columns w)) (cell r2 (rows w))) w)).
Proof.
  intros Hr Hon Hfree. unfold placeApple. rewrite Hr.
  rewrite (placeApple_loop_returns _ _ _ _ _ _ _ Hon Hfree). reflexivity.
Qed.

(** With the snake on (19, 1), the round made of the double nearest 0.95
    and of 0.0625 falls on (19, 1), since 0.95 * 20 is rounded to 19.0, and
    is skipped; the round 0.5, 0.5 gives (10, 10). *)
Lemma placeApple_first_free_witness :
  cell nearest_095 (columns feeding) = 19
  /\ Qfloor (nearest_095 * columns feeding) = 18
  /\ placeApple
       (set_random [nearest_095; 1#16; 1#2; 1#2] (set_snake [mkPoint 19 1] feeding))
     = Ok (set_random []
             (set_apple (mkPoint 10 10)
                (set_random [nearest_095; 1#16; 1#2; 1#2]
                   (set_snake [mkPoint 19 1] feeding)))).
Proof.
  split; [vm_compute; reflexivity |]. split; [vm_compute; reflexivity |].
  apply (placeApple_first_free
           (set_random [nearest_095; 1#16; 1#2; 1#2] (set_snake [mkPoint 19 1] feeding))
           [(nearest_095, 1#16)] (1#2) (1#2) []).
  - reflexivity.
  - constructor; [left; vm_compute; reflexivity | constructor].
  - intros [H | []]. vm_compute in H. discriminate.
Defined.

Lemma apple_board_gameLoop (depth : nat) (w w' : World) :
  0 < canvasWidth w -> 0 < canvasHeight w ->
  Forall unit_draw (random w) -> on_board w (apple w) ->
  gameLoop depth w = Ok w' ->
  Forall unit_draw (random w') /\ on_board w' (apple w').
Proof.
  intros Hcw Hch Hr Ha H.
  refine (proj2 (proj2
    (gameLoop_inv
       (fun v => 0 < canvasWidth v /\ 0 < canvasHeight v
                 /\ Forall unit_draw (random v) /\ on_board v (apple v))
       _ _ _ depth w w' _ H))).
  - intros loop v v' head [Hvw [Hvh [Hvr Hva]]] Hp Hc Hup.
    rewrite update_with_eq, Hp, Hc in Hup.
    destruct ((x head =? x (apple v)) && (y head =? y (apple v))).
    + apply bind_Ok_inv in Hup. destruct Hup as [v1 [Hplace Hv']].
      injection Hv' as <-.
      apply placeApple_board in Hplace; [| exact Hvw | exact Hvh | exact Hvr].
      destruct Hplace as [Hon [Hrest [Hw1 Hh1]]].
      cbn [canvasWidth canvasHeight updateScoreDisplay emit set_log set_score
           set_snake commit set_direction] in Hw1, Hh1.
      unfold increaseDifficulty.
      destruct (speed v1 >? CONFIG.minSpeed);
        (split; [| split; [| split; [exact Hrest | exact Hon]]]);
        cbn [canvasWidth canvasHeight set_speed]; lia.
    + injection Hup as <-.
      split; [exact Hvw |]. split; [exact Hvh |]. split; [exact Hvr | exact Hva].
  - intros v v1 [Hvw [Hvh [Hvr Hva]]] Hover.
    destruct (handleGameOver_with_board _ _ Hover)
      as [Hw1 [Hh1 [_ [p [rest [Hloop [Hp Hrest]]]]]]].
    cbn [canvasWidth canvasHeight commit set_direction] in Hw1, Hh1.
    destruct (placeApple_loop_on_board _ _ _ Hvw Hvh _ _ _ Hvr Hloop) as [Hon Hr1].
    split; [lia |]. split; [lia |]. split; [rewrite Hrest; exact Hr1 |].
    unfold on_board. rewrite Hp, Hw1, Hh1. exact Hon.
  - intros v Hv. exact Hv.
  - split; [exact Hcw |]. split; [exact Hch |]. split; [exact Hr | exact Ha].
Qed.

(** X6.  If every value of [Math.random()] lies in [0, 1), the apple is on
    the board when the constructor returns and stays on the board through
    every key press and every timer callback. *)
Theorem apple_stays_on_board :
  (forall width height stored draws depth w,
     Forall unit_draw draws ->
     constructor width height stored draws depth = Ok w ->
     Forall unit_draw (random w) /\ on_board w (apple w))
  /\ (forall key w,
        Forall unit_draw (random w) /\ on_board w (apple w) ->
        Forall unit_draw (random (keydown key w))
        /\ on_board (keydown key w) (apple (keydown key w)))
  /\ (forall h depth w w',
        reachable w ->
        Forall unit_draw (random w) /\ on_board w (apple w) ->
        timeout h depth w = Ok w' ->
        Forall unit_draw (random w') /\ on_board w' (apple w')).
Proof.
  split; [| split].
  - intros width height stored draws depth w Hdraws Hnew.
    destruct (canvas_positive w (reach_new _ _ _ _ _ _ Hnew)) as [Hcw Hch].
    unfold constructor, resetGame in Hnew. rewrite resetGame_with_bind in Hnew.
    apply bind_Ok_inv in Hnew. destruct Hnew as [w1 [Hreset Hloop]].
    destruct (gameLoop_canvas _ _ _ Hloop) as [Hw1 Hh1].
    destruct (resetGame_with_board _ _ Hreset)
      as [Hw0 [Hh0 [_ [p [rest [Hploop [Hp Hrest]]]]]]].
    cbn [canvasWidth canvasHeight updateHighScoreDisplay emit set_log blank]
      in Hw0, Hh0.
    assert (Hwidth : 0 < width) by lia.
    assert (Hheight : 0 < height) by lia.
    destruct (placeApple_loop_on_board _ _ _ Hwidth Hheight _ _ _ Hdraws Hploop)
      as [Hon Hr1].
    apply (apple_board_gameLoop depth w1 w); try lia.
    + rewrite Hrest. exact Hr1.
    + unfold on_board. rewrite Hp, Hw0, Hh0. exact Hon.
    + exact Hloop.
  - intros key w H.
    destruct (keydown_cases key w) as [-> | [d [_ [_ ->]]]]; exact H.
  - intros h depth w w' Hr [Hdraws Hon] Hfire.
    destruct (canvas_positive w Hr) as [Hcw Hch].
    unfold timeout in Hfire. destruct (pending h w).
    + exact (apple_board_gameLoop depth (clearTimeout h w) w' Hcw Hch Hdraws Hon Hfire).
    + injection Hfire as <-. split; assumption.
Qed.

(** The sample page is built from draws in [0, 1): its first apple, and the
    one placed after the crash into the top wall, are on the board. *)
Lemma apple_stays_on_board_witness :
  on_board started (apple started) /\ on_board crashed (apple crashed).
Proof.
  destruct apple_stays_on_board as [Hnew [Hkey Hfire]].
  assert (H0 : Forall unit_draw (random started) /\ on_board started (apple started)).
  { apply (Hnew 400 400 None [1#2; 1#2; 1#4; 3#4] 1%nat started).
    - repeat constructor; discriminate.
    - vm_compute. reflexivity. }
  split; [exact (proj2 H0) |].
  assert (H1 : Forall unit_draw (random climbed) /\ on_board climbed (apple climbed)).
  { apply (Hfire 1%nat 1%nat turned climbed).
    - apply reach_keydown. exact started_reachable.
    - apply (Hkey "ArrowUp"%string started). exact H0.
    - vm_compute. reflexivity. }
  refine (proj2 (Hfire 2%nat 2%nat climbed crashed _ H1 _)).
  - apply (reach_timeout 1 1 turned); [| vm_compute; reflexivity].
    apply reach_keydown. exact started_reachable.
  - vm_compute. reflexivity.
Defined.

(** ** Score, length and speed *)

Lemma length_removelast_cons {A : Type} (a : A) (l : list A) :
  List.length (removelast (a :: l)) = List.length l.
Proof.
  revert a. induction l as [|b l IH]; intros a; [reflexivity |].
  change (removelast (a :: b :: l)) with (a :: removelast (b :: l)).
  cbn [List.length]. f_equal. apply IH.
Qed.

Lemma tally_move (loop : World -> result World) (w w' : World) (head : Point) :
  prospective w = Some head -> collision head (commit w) = false ->
  update_with loop w = Ok w' ->
  (score w' = score w + 1
   /\ List.length (snake w') = S (List.length (snake w))
   /\ speed w' = (if speed w >? CONFIG.minSpeed
                  then speed w - CONFIG.speedDecrement else speed w))
  \/ (score w' = score w
      /\ List.length (snake w') = List.length (snake w)
      /\ speed w' = speed w).
Proof.
  intros Hp Hc Hup.
  destruct (update_move_inv _ _ _ _ Hp Hc Hup) as [[_ [p [rest [_ ->]]]] | [_ ->]].
  - left. unfold increaseDifficulty.
    cbn [speed set_random set_apple updateScoreDisplay emit set_log set_score
         set_snake commit set_direction].
    destruct (speed w >? CONFIG.minSpeed); repeat split; reflexivity.
  - right. split; [reflexivity |]. split; [| reflexivity].
    cbn [snake set_snake]. apply length_removelast_cons.
Qed.

(** X7.  In every state the page can reach the score is the length of the
    snake minus one, and the delay between ticks is 200 - 5 * score,
    floored at 50 (from score 30 on). *)
Theorem score_length_speed (w : World) :
  reachable w ->
  score w = Z.of_nat (List.length (snake w)) - 1
  /\ speed w = Z.max CONFIG.minSpeed
                 (CONFIG.initialSpeed - CONFIG.speedDecrement * score w).
Proof.
  revert w. apply reachable_inv.
  - intros loop v v' head [Hs Hv] Hp Hc Hup.
    destruct (tally_move _ _ _ _ Hp Hc Hup) as [[-> [-> ->]] | [-> [-> ->]]].
    + unfold CONFIG.minSpeed, CONFIG.initialSpeed, CONFIG.speedDecrement in *.
      destruct (speed v >? 50) eqn:Hgt.
      { apply Z.gtb_lt in Hgt. split; lia. }
      { rewrite Z.gtb_ltb in Hgt. apply Z.ltb_ge in Hgt. split; lia. }
    + split; assumption.
  - intros v v1 _ Hover. apply handleGameOver_with_fresh in Hover.
    rewrite (fresh_score _ _ Hover), (fresh_speed _ _ Hover),
      (fresh_snake _ _ Hover).
    split; reflexivity.
  - intros v Hv. exact Hv.
  - intros width height stored draws w1 H. apply resetGame_with_fresh in H.
    rewrite (fresh_score _ _ H), (fresh_speed _ _ H), (fresh_snake _ _ H).
    split; reflexivity.
  - intros key v Hv.
    destruct (keydown_cases key v) as [-> | [d [_ [_ ->]]]]; exact Hv.
  - intros h v Hv. exact Hv.
Qed.

Lemma grown_reachable : reachable grown.
Proof.
  apply (reach_timeout 1 1 hungry); [| vm_compute; reflexivity].
  apply (reach_new 400 400 None [1#4; 1#20; 1#2; 1#2] 1%nat).
  vm_compute. reflexivity.
Qed.

(** After the first apple: score 1, two cells, 195 ms between ticks. *)
Lemma score_length_speed_witness :
  score grown = Z.of_nat (List.length (snake grown)) - 1
  /\ speed grown = Z.max 50 (200 - 5 * score grown)
  /\ speed grown = 195.
Proof.
  destruct (score_length_speed grown grown_reachable) as [Hs Hv].
  split; [exact Hs |]. split; [exact Hv | reflexivity].
Defined.

(** ** What the player sees *)

Lemma shown_move (loop : World -> result World) (w w' : World) (head : Point) :
  prospective w = Some head -> collision head (commit w) = false ->
  update_with loop w = Ok w' ->
  (score w' = score w + 1 /\ log w' = ScoreText (score w + 1) :: log w
   \/ score w' = score w /\ log w' = log w)
  /\ highScore w' = highScore w.
Proof.
  intros Hp Hc Hup.
  destruct (update_move_inv _ _ _ _ Hp Hc Hup) as [[_ [p [rest [_ ->]]]] | [_ ->]].
  - unfold increaseDifficulty.
    cbn [speed set_random set_apple updateScoreDisplay emit set_log set_score
         set_snake commit set_direction].
    destruct (speed w >? CONFIG.minSpeed); (split; [left; split |]); reflexivity.
  - split; [right; split |]; reflexivity.
Qed.

Lemma shown_recorded (w : World) :
  shownHighScore (log w) = Some (highScore w) ->
  shownHighScore (log (recorded w)) = Some (highScore (recorded w)).
Proof.
  unfold recorded. destruct (score w >? highScore w); intros H;
    [reflexivity | exact H].
Qed.

(** X8.  In every state the page can reach, the score element shows the
    current score and the high-score element the current high score. *)
Theorem displays_up_to_date (w : World) :
  reachable w ->
  shownScore (log w) = Some (score w)
  /\ shownHighScore (log w) = Some (highScore w).
Proof.
  revert w. apply reachable_inv.
  - intros loop v v' head [Hs Hh] Hp Hc Hup.
    destruct (shown_move _ _ _ _ Hp Hc Hup) as [[[-> ->] | [-> ->]] ->].
    + split; [reflexivity | exact Hh].
    + split; assumption.
  - intros v v1 [_ Hh] Hover. apply handleGameOver_with_fresh in Hover.
    rewrite (fresh_log _ _ Hover), (fresh_score _ _ Hover),
      (fresh_highScore _ _ Hover).
    split; [reflexivity |].
    cbn [shownHighScore]. apply shown_recorded. exact Hh.
  - intros v Hv. exact Hv.
  - intros width height stored draws w1 H. apply resetGame_with_fresh in H.
    rewrite (fresh_log _ _ H), (fresh_score _ _ H), (fresh_highScore _ _ H).
    split; reflexivity.
  - intros key v Hv.
    destruct (keydown_cases key v) as [-> | [d [_ [_ ->]]]]; exact Hv.
  - intros h v Hv. exact Hv.
Qed.

Lemma displays_up_to_date_witness :
  shownScore (log crashed) = Some 0 /\ shownHighScore (log crashed) = Some 0.
Proof. exact (displays_up_to_date crashed crashed_reachable). Defined.

(** X9.  In every state the page can reach, the last picture painted on the
    canvas is the current snake and apple, a timer is pending whose delay is
    the current speed, and [gameLoopTimeout] holds its handle: the game
    never stalls between ticks. *)
Theorem picture_and_timer_current (w : World) :
  reachable w ->
  painted (log w) = Some (snake w, apple w)
  /\ exists h, gameLoopTimeout w = Some h
               /\ In (h, speed w) (timers w)
               /\ pending h w = true.
Proof.
  assert (Hloop : forall depth v v', gameLoop depth v = Ok v' ->
            painted (log v') = Some (snake v', apple v')
            /\ exists h, gameLoopTimeout v' = Some h
                         /\ In (h, speed v') (timers v')
                         /\ pending h v' = true).
  { intros depth v v' H. apply gameLoop_rearmed in H.
    destruct H as [u [-> _]]. split; [reflexivity |].
    exists (nextHandle u). split; [reflexivity |].
    destruct (rearm_timers u) as [Ht _].
    unfold pending. rewrite Ht. split.
    - apply in_or_app. right. left. reflexivity.
    - rewrite existsb_app. cbn [existsb fst].
      rewrite Nat.eqb_refl, orb_true_r. reflexivity. }
  induction 1 as [width height stored draws depth w Hnew
                 | key w _ IH | h depth w w' _ IH Hfire].
  - unfold constructor, resetGame in Hnew. rewrite resetGame_with_bind in Hnew.
    apply bind_Ok_inv in Hnew. destruct Hnew as [w1 [_ Hrun]].
    exact (Hloop _ _ _ Hrun).
  - destruct (keydown_cases key w) as [-> | [d [_ [_ ->]]]]; exact IH.
  - unfold timeout in Hfire. destruct (pending h w).
    + exact (Hloop _ _ _ Hfire).
    + injection Hfire as <-. exact IH.
Qed.

Lemma picture_and_timer_current_witness :
  painted (log crashed) = Some ([mkPoint 4 1], mkPoint 5 15)
  /\ exists h, gameLoopTimeout crashed = Some h
               /\ In (h, 200) (timers crashed)
               /\ pending h crashed = true.
Proof. exact (picture_and_timer_current crashed crashed_reachable). Defined.

(** ** The shape of the snake *)

Lemma snake_move (loop : World -> result World) (w w' : World) (head : Point) :
  prospective w = Some head -> collision head (commit w) = false ->
  update_with loop w = Ok w' ->
  direction w' = nextDirection w
  /\ exists s0 body,
       snake w = s0 :: body /\ head = step (nextDirection w) s0
       /\ (snake w' = head :: s0 :: body
           \/ snake w' = head :: removelast (s0 :: body)).
Proof.
  intros Hp Hc Hup.
  destruct (buffer_ok_move _ _ _ _ Hp Hc Hup) as [Hd _].
  split; [exact Hd |].
  destruct (prospective_Some_body _ _ Hp) as [s0 [body [Hs Hh]]].
  exists s0, body. split; [exact Hs |]. split; [exact Hh |].
  destruct (update_move_inv _ _ _ _ Hp Hc Hup) as [[_ [p [rest [_ ->]]]] | [_ ->]].
  - left. unfold increaseDifficulty.
    cbn [speed set_random set_apple updateScoreDisplay emit set_log set_score
         set_snake commit set_direction snake].
    destruct (speed w >? CONFIG.minSpeed); cbn [snake set_speed]; rewrite Hs;
      reflexivity.
  - right. cbn [snake set_snake]. rewrite Hs. reflexivity.
Qed.

Lemma step_adjacent (d : Direction) (p : Point) : adjacent (step d p) p.
Proof. unfold adjacent. destruct d; simpl; lia. Qed.

Lemma step_back (a d : Direction) (p : Point) :
  step a (step d p) = p -> a = opposite d.
Proof.
  destruct p as [px py].
  destruct a, d; simpl; intros H; try reflexivity; injection H; lia.
Qed.

Lemma connected_removelast (body : list Point) :
  connected body -> connected (removelast body).
Proof.
  induction body as [|a body IH]; [trivial |].
  destruct body as [|b body]; [trivial |].
  destruct body as [|c body]; [simpl; trivial |].
  intros [Hab Hrest].
  change (removelast (a :: b :: c :: body))
    with (a :: b :: removelast (c :: body)).
  split; [exact Hab |]. exact (IH Hrest).
Qed.

Lemma neck_ok_reachable (w : World) : reachable w -> neck_ok w.
Proof.
  revert w. apply reachable_inv.
  - intros loop v v' head _ Hp Hc Hup.
    destruct (snake_move _ _ _ _ Hp Hc Hup) as [Hd [s0 [body [Hs [Hh Hs']]]]].
    intros h n rest Hv'. rewrite Hd.
    destruct Hs' as [Hs' | Hs']; rewrite Hs' in Hv'.
    + injection Hv' as <- <- _. exact Hh.
    + destruct body as [|b body]; [discriminate |].
      change (removelast (s0 :: b :: body)) with (s0 :: removelast (b :: body)) in Hv'.
      injection Hv' as <- <- _. exact Hh.
  - intros v v1 _ Hover. apply handleGameOver_with_fresh in Hover.
    intros h n rest Hs. rewrite (fresh_snake _ _ Hover) in Hs. discriminate.
  - intros v Hv. exact Hv.
  - intros width height stored draws w1 H. apply resetGame_with_fresh in H.
    intros h n rest Hs. rewrite (fresh_snake _ _ H) in Hs. discriminate.
  - intros key v Hv.
    destruct (keydown_cases key v) as [-> | [d [_ [_ ->]]]]; exact Hv.
  - intros h v Hv. exact Hv.
Qed.

Lemma keydowns_snake (keys : list string) :
  forall w, snake (keydowns keys w) = snake w.
Proof.
  induction keys as [|key keys IH]; intros w; [reflexivity |].
  change (keydowns (key :: keys) w) with (keydowns keys (keydown key w)).
  rewrite IH.
  destruct (keydown_cases key w) as [-> | [d [_ [_ ->]]]]; reflexivity.
Qed.

(** X10.  In every state the page can reach, whatever keys are pressed
    before the next tick, the cell the head is about to enter is not the
    second cell of the snake: the snake cannot turn back into its neck. *)
Theorem never_into_the_neck
  (w : World) (keys : list string) (h n : Point) (rest : list Point) :
  reachable w ->
  snake w = h :: n :: rest ->
  h = step (direction w) n
  /\ prospective (keydowns keys w) <> Some n.
Proof.
  intros Hr Hs.
  assert (Hh : h = step (direction w) n) by exact (neck_ok_reachable w Hr h n rest Hs).
  split; [exact Hh |].
  pose proof (buffer_ok_reachable _ (keydowns_reachable keys w Hr)) as Hok.
  destruct (keydowns_buffer keys w) as [Hd _].
  unfold buffer_ok in Hok. rewrite Hd in Hok.
  unfold prospective. rewrite keydowns_snake, Hs.
  intros H. injection H as H. apply Hok.
  apply (step_back _ _ n). rewrite <- Hh. exact H.
Qed.

(** The two-cell snake heads right from (4, 1) to (5, 1); the left arrow
    is refused, so the head is not about to enter (4, 1). *)
Lemma never_into_the_neck_witness :
  mkPoint 5 1 = step (direction grown) (mkPoint 4 1)
  /\ prospective (keydowns ["ArrowLeft"%string] grown) <> Some (mkPoint 4 1).
Proof.
  apply (never_into_the_neck grown ["ArrowLeft"%string] (mkPoint 5 1) (mkPoint 4 1) []).
  - exact grown_reachable.
  - reflexivity.
Defined.

(** X11.  In every state the page can reach, each cell of the snake is
    side by side with the next one. *)
Theorem snake_connected (w : World) : reachable w -> connected (snake w).
Proof.
  revert w. apply reachable_inv.
  - intros loop v v' head Hv Hp Hc Hup.
    destruct (snake_move _ _ _ _ Hp Hc Hup) as [_ [s0 [body [Hs [Hh Hs']]]]].
    rewrite Hs in Hv.
    assert (Hall : connected (head :: s0 :: body)).
    { split; [rewrite Hh; apply step_adjacent | exact Hv]. }
    destruct Hs' as [-> | ->]; [exact Hall |].
    exact (connected_removelast (head :: s0 :: body) Hall).
  - intros v v1 _ Hover. apply handleGameOver_with_fresh in Hover.
    rewrite (fresh_snake _ _ Hover). exact I.
  - intros v Hv. exact Hv.
  - intros width height stored draws w1 H. apply resetGame_with_fresh in H.
    rewrite (fresh_snake _ _ H). exact I.
  - intros key v Hv.
    destruct (keydown_cases key v) as [-> | [d [_ [_ ->]]]]; exact Hv.
  - intros h v Hv. exact Hv.
Qed.

Lemma snake_connected_witness : connected (snake grown).
Proof. exact (snake_connected grown grown_reachable). Defined.

(** ** More on key presses and timers *)

(** X12.  A key press changes no field but [nextDirection], pressing the
    same key again changes nothing more, and a key that is not one of the
    four arrows changes nothing at all. *)
Theorem keydown_only_buffers (key : string) (w : World) :
  keydown key w = set_nextDirection (nextDirection (keydown key w)) w
  /\ keydown key (keydown key w) = keydown key w
  /\ (request key = None -> keydown key w = w).
Proof.
  split; [| split].
  - destruct (keydown_cases key w) as [-> | [d [_ [_ ->]]]]; reflexivity.
  - rewrite !keydown_request.
    destruct (request key) as [d|]; [| reflexivity].
    destruct (legal (direction w) d) eqn:Hl.
    + cbn [direction set_nextDirection]. rewrite Hl. reflexivity.
    + rewrite Hl. reflexivity.
  - intros Hreq. rewrite keydown_request, Hreq. reflexivity.
Qed.

Lemma keydown_only_buffers_witness : keydown "Escape" started = started.
Proof.
  apply (proj2 (proj2 (keydown_only_buffers "Escape" started))). reflexivity.
Defined.

(** X13.  A tick that ends in a game over paints the canvas twice with the
    same picture, the first frame of the new session: once from the
    [gameLoop] that [resetGame] started and once more from the [gameLoop]
    that was running the tick. *)
Theorem game_over_paints_twice (depth : nat) (w w' : World) (head : Point) :
  prospective w = Some head ->
  collision head (commit w) = true ->
  gameLoop depth w = Ok w' ->
  exists older,
    log w' = Draw (snake w') (apple w') :: Draw (snake w') (apple w') :: older.
Proof.
  intros Hp Hc Hloop.
  apply gameLoop_rearmed in Hloop. destruct Hloop as [v [-> Hup]].
  rewrite update_with_eq, Hp, Hc, handleGameOver_with_bind in Hup.
  apply bind_Ok_inv in Hup. destruct Hup as [w1 [_ Hnested]].
  apply gameLoop_rearmed in Hnested. destruct Hnested as [v0 [-> _]].
  exists (log v0). reflexivity.
Qed.

Lemma game_over_paints_twice_witness :
  exists older,
    log crashed = Draw [mkPoint 4 1] (mkPoint 5 15)
                  :: Draw [mkPoint 4 1] (mkPoint 5 15) :: older.
Proof.
  apply (game_over_paints_twice 2 (clearTimeout 2 climbed) crashed (mkPoint 4 (-1)));
    [reflexivity | reflexivity | vm_compute; reflexivity].
Defined.

Lemma In_map_fst_filter {A B : Type} (keep : A * B -> bool) (a : A) (l : list (A * B)) :
  In a (map fst (filter keep l)) -> In a (map fst l).
Proof.
  induction l as [|t l IH]; simpl; [tauto |].
  destruct (keep t); simpl; tauto.
Qed.

Lemma NoDup_map_fst_filter {A B : Type} (keep : A * B -> bool) (l : list (A * B)) :
  NoDup (map fst l) -> NoDup (map fst (filter keep l)).
Proof.
  induction l as [|t l IH]; simpl; intros H; [exact H |].
  inversion H as [|? ? Ht Hl]; subst.
  destruct (keep t); simpl; [| exact (IH Hl)].
  constructor; [| exact (IH Hl)].
  intros Hin. apply Ht. exact (In_map_fst_filter keep _ _ Hin).
Qed.

Lemma handles_ok_clearTimeout (h : nat) (w : World) :
  handles_ok w -> handles_ok (clearTimeout h w).
Proof.
  intros [Hnd Hlt]. split.
  - exact (NoDup_map_fst_filter _ _ Hnd).
  - apply Forall_forall. intros t Ht. apply filter_In in Ht.
    exact (proj1 (Forall_forall _ _) Hlt t (proj1 Ht)).
Qed.

Lemma handles_ok_rearm (v : World) : handles_ok v -> handles_ok (rearm (draw v)).
Proof.
  intros [Hnd Hlt]. unfold handles_ok.
  destruct (rearm_timers v) as [-> [_ ->]]. split.
  - rewrite map_app. cbn [map fst].
    assert (Hfresh : ~ In (nextHandle v) (map fst (timers v))).
    { intros Hin. apply in_map_iff in Hin. destruct Hin as [t [Hf Ht]].
      pose proof (proj1 (Forall_forall _ _) Hlt t Ht) as Hl.
      cbv beta in Hl. rewrite Hf in Hl. lia. }
    clear Hlt. induction (map fst (timers v)) as [|a l IH]; simpl.
    + constructor; [simpl; tauto | constructor].
    + inversion Hnd as [|? ? Ha Hl]; subst. constructor.
      * intros Hin. apply in_app_or in Hin. destruct Hin as [Hin | [Heq | []]].
        { exact (Ha Hin). }
        { apply Hfresh. left. symmetry. exact Heq. }
      * apply IH; [exact Hl |]. intros Hin. apply Hfresh. right. exact Hin.
  - apply Forall_app. split.
    + apply Forall_forall. intros t Ht.
      pose proof (proj1 (Forall_forall _ _) Hlt t Ht) as Hl. cbv beta in Hl. lia.
    + constructor; [simpl; lia | constructor].
Qed.

Lemma resetGame_with_timers (w w1 : World) :
  resetGame_with Ok w = Ok w1 ->
  nextHandle w1 = nextHandle w
  /\ (timers w1 = timers w \/ exists h, timers w1 = timers (clearTimeout h w)).
Proof.
  unfold resetGame_with. intros H.
  apply bind_Ok_inv in H. destruct H as [wa [Hplace Hw1]].
  apply placeApple_inv in Hplace.
  destruct Hplace as [p [rest [_ [-> _]]]].
  destruct (gameLoopTimeout _) as [[|h]|]; injection Hw1 as <-;
    (split; [reflexivity |]);
    first [left; reflexivity | right; exists (S h); reflexivity].
Qed.

Lemma handleGameOver_with_timers (w w1 : World) :
  handleGameOver_with Ok w = Ok w1 ->
  nextHandle w1 = nextHandle w
  /\ (timers w1 = timers w \/ exists h, timers w1 = timers (clearTimeout h w)).
Proof.
  rewrite handleGameOver_with_recorded. intros H.
  apply resetGame_with_timers in H. unfold recorded in H.
  destruct (score w >? highScore w); exact H.
Qed.

Lemma timers_move (loop : World -> result World) (w w' : World) (head : Point) :
  prospective w = Some head -> collision head (commit w) = false ->
  update_with loop w = Ok w' ->
  timers w' = timers w /\ nextHandle w' = nextHandle w.
Proof.
  intros Hp Hc Hup.
  destruct (update_move_inv _ _ _ _ Hp Hc Hup) as [[_ [p [rest [_ ->]]]] | [_ ->]].
  - unfold increaseDifficulty.
    destruct (speed _ >? CONFIG.minSpeed); split; reflexivity.
  - split; reflexivity.
Qed.

Lemma filter_handle_absent {B : Type} (h : nat) (l : list (nat * B)) :
  ~ In h (map fst l) ->
  filter (fun t => negb (Nat.eqb (fst t) h)) l = l.
Proof.
  induction l as [|u l IH]; simpl; intros Hnot; [reflexivity |].
  destruct (Nat.eqb (fst u) h) eqn:Eu; simpl.
  - exfalso. apply Hnot. left. apply Nat.eqb_eq. exact Eu.
  - f_equal. apply IH. intros Hin. apply Hnot. right. exact Hin.
Qed.

(** Cancelling one handle of a table of distinct handles removes at most
    one entry, exactly one when the handle is pending. *)
Lemma filter_handle_length {B : Type} (h : nat) (l : list (nat * B)) :
  NoDup (map fst l) ->
  (List.length l
   <= S (List.length (filter (fun t => negb (Nat.eqb (fst t) h)) l)))%nat
  /\ (existsb (fun t => Nat.eqb (fst t) h) l = true ->
      List.length l
      = S (List.length (filter (fun t => negb (Nat.eqb (fst t) h)) l))).
Proof.
  induction l as [|t l IH]; simpl; intros Hnd.
  - split; [lia | discriminate].
  - inversion Hnd as [|? ? Ht Hl]; subst. destruct (IH Hl) as [IH1 IH2].
    destruct (Nat.eqb (fst t) h) eqn:E; simpl.
    + apply Nat.eqb_eq in E. rewrite E in Ht.
      rewrite (filter_handle_absent h l Ht). split; [lia | reflexivity].
    + split; [lia |]. intros Hex. rewrite (IH2 Hex). reflexivity.
Qed.

Lemma timers_gameLoop :
  forall depth u w',
    handles_ok u -> gameLoop depth u = Ok w' ->
    handles_ok w'
    /\ (S (List.length (timers u)) <= List.length (timers w'))%nat.
Proof.
  induction depth as [|depth IH]; simpl; intros u w' Hok H; [discriminate |].
  apply bind_Ok_inv in H. destruct H as [v [Hup Hw']]. injection Hw' as <-.
  assert (Hv : handles_ok v
               /\ (List.length (timers u) <= List.length (timers v))%nat).
  { destruct (prospective u) as [head|] eqn:Hp.
    - destruct (collision head (commit u)) eqn:Hc.
      + rewrite update_with_eq, Hp, Hc, handleGameOver_with_bind in Hup.
        apply bind_Ok_inv in Hup. destruct Hup as [w1 [Hover Hnested]].
        destruct (handleGameOver_with_timers _ _ Hover) as [Hn Ht].
        assert (Hok1 : handles_ok w1
                       /\ (List.length (timers u) <= S (List.length (timers w1)))%nat).
        { destruct Hok as [Hnd Hlt]. unfold handles_ok. rewrite Hn.
          destruct Ht as [-> | [h ->]].
          - split; [split; assumption | cbn [timers commit set_direction]; lia].
          - split; [exact (handles_ok_clearTimeout h (commit u) (conj Hnd Hlt)) |].
            exact (proj1 (filter_handle_length h (timers u) Hnd)). }
        destruct Hok1 as [Hok1 Hlen1].
        destruct (IH w1 v Hok1 Hnested) as [Hokv Hlenv].
        split; [exact Hokv | lia].
      + destruct (timers_move _ _ _ _ Hp Hc Hup) as [Ht Hn].
        unfold handles_ok. rewrite Ht, Hn. split; [exact Hok | lia].
    - rewrite update_with_eq, Hp in Hup. discriminate. }
  destruct Hv as [Hokv Hlenv].
  split; [exact (handles_ok_rearm v Hokv) |].
  destruct (rearm_timers v) as [-> _]. rewrite length_app. simpl. lia.
Qed.

Lemma handles_ok_reachable (w : World) : reachable w -> handles_ok w.
Proof.
  induction 1 as [width height stored draws depth w Hnew
                 | key w _ IH | h depth w w' _ IH Hfire].
  - unfold constructor, resetGame in Hnew. rewrite resetGame_with_bind in Hnew.
    apply bind_Ok_inv in Hnew. destruct Hnew as [w1 [Hreset Hloop]].
    refine (proj1 (timers_gameLoop depth w1 w _ Hloop)).
    destruct (resetGame_with_timers _ _ Hreset) as [Hn Ht].
    unfold handles_ok. rewrite Hn.
    destruct Ht as [-> | [h ->]]; split; constructor.
  - destruct (keydown_cases key w) as [-> | [d [_ [_ ->]]]]; exact IH.
  - unfold timeout in Hfire. destruct (pending h w).
    + exact (proj1 (timers_gameLoop depth _ w' (handles_ok_clearTimeout h w IH) Hfire)).
    + injection Hfire as <-. exact IH.
Qed.

(** X14.  In every state the page can reach the pending timers have
    distinct handles, and a timer callback never leaves fewer timers pending
    than it found: the second loop a game over starts is there for good. *)
Theorem timers_never_fewer (h depth : nat) (w w' : World) :
  reachable w ->
  timeout h depth w = Ok w' ->
  NoDup (map fst (timers w))
  /\ (List.length (timers w) <= List.length (timers w'))%nat.
Proof.
  intros Hr Hfire. pose proof (handles_ok_reachable w Hr) as Hok.
  split; [exact (proj1 Hok) |].
  unfold timeout in Hfire. destruct (pending h w) eqn:Hpend.
  - destruct (timers_gameLoop depth _ w' (handles_ok_clearTimeout h w Hok) Hfire)
      as [_ Hlen].
    pose proof (proj2 (filter_handle_length h (timers w) (proj1 Hok)) Hpend) as Hcut.
    cbn [timers clearTimeout set_timers] in Hlen. lia.
  - injection Hfire as <-. lia.
Qed.

(** Two timers are pending after the crash; when handle 3 fires, two are
    pending again. *)
Lemma timers_never_fewer_witness :
  (List.length (timers crashed)
   <= List.length (timers (returned (timeout 3 1 crashed) crashed)))%nat
  /\ List.length (timers crashed) = 2%nat.
Proof.
  split; [| reflexivity].
  refine (proj2 (timers_never_fewer 3 1 crashed _ crashed_reachable _)).
  vm_compute. reflexivity.
Defined.


(** ** The first version of the game *)

Lemma last_not_in_removelast {A : Type} (l : list A) (d : A) :
  NoDup l -> l <> [] -> ~ In (last l d) (removelast l).
Proof.
  intros Hnd Hne Hin.
  rewrite (app_removelast_last d Hne) in Hnd.
  apply NoDup_remove_2 in Hnd. apply Hnd.
  rewrite app_nil_r. exact Hin.
Qed.

Lemma legacy_wall_false (g : Legacy.Game) (p : Point) :
  Legacy.on_board g p ->
  (x p <? 0)
  || Qle_bool (Legacy.columns g) (inject_Z (x p))
  || (y p <? 0)
  || Qle_bool (Legacy.rows g) (inject_Z (y p)) = false.
Proof.
  intros [Hx [Hw [Hy Hh]]].
  assert (Ec : Qle_bool (Legacy.columns g) (inject_Z (x p)) = false)
    by (apply (Qle_bool_cells_false (Legacy.canvasWidth g) (x p)); exact Hw).
  assert (Er : Qle_bool (Legacy.rows g) (inject_Z (y p)) = false)
    by (apply (Qle_bool_cells_false (Legacy.canvasHeight g) (y p)); exact Hh).
  rewrite Ec, Er.
  rewrite (proj2 (Z.ltb_ge (x p) 0) Hx), (proj2 (Z.ltb_ge (y p) 0) Hy).
  reflexivity.
Qed.

Lemma existsb_cell_false (head : Point) (others : list Point) :
  ~ In head others ->
  existsb (fun c => (x head =? x c) && (y head =? y c)) others = false.
Proof.
  intros Hnot.
  destruct (existsb _ others) eqn:E; [| reflexivity].
  exfalso. apply Hnot. apply existsb_exists in E.
  destruct E as [c [Hin Heq]]. apply same_cell_eq in Heq. subst c. exact Hin.
Qed.

Lemma existsb_cell_true (head : Point) (others : list Point) :
  In head others ->
  existsb (fun c => (x head =? x c) && (y head =? y c)) others = true.
Proof.
  intros Hin. apply existsb_exists. exists head.
  split; [exact Hin | apply same_cell_eq; reflexivity].
Qed.

(** X15.  In [snake.js] the self-collision test runs after the move: a head
    that enters the cell the tail is leaving (apple elsewhere) survives, and
    the snake simply advances.  The later version ends the game on the same
    tick. *)
Theorem legacy_tail_cell_is_free
  (g : Legacy.Game) (c0 : Point) (body : list Point) (head : Point) :
  Legacy.cells g = c0 :: body ->
  body <> [] ->
  NoDup (Legacy.cells g) ->
  head = step (Legacy.direction g) c0 ->
  head = last body c0 ->
  head <> Legacy.position g ->
  Legacy.on_board g head ->
  Legacy.update g = Ok (Legacy.set_cells (head :: removelast (c0 :: body)) g)
  /\ In head (Legacy.cells g).
Proof.
  intros Hcells Hbody Hnd Hhead Htail Happle Hboard.
  assert (Hlast : last (c0 :: body) c0 = head).
  { destruct body as [|b body]; [contradiction Hbody; reflexivity |].
    rewrite Htail. reflexivity. }
  split.
  - unfold Legacy.update. rewrite Hcells, <- Hhead.
    assert (Heat : (x head =? x (Legacy.position g))
                   && (y head =? y (Legacy.position g)) = false).
    { destruct ((x head =? x (Legacy.position g))
                && (y head =? y (Legacy.position g))) eqn:E; [| reflexivity].
      exfalso. apply Happle. apply same_cell_eq. exact E. }
    rewrite Heat.
    cbn [Legacy.cells Legacy.set_cells].
    change (removelast (head :: c0 :: body)) with (head :: removelast (c0 :: body)).
    set (g' := Legacy.set_cells (head :: removelast (c0 :: body))
                 (Legacy.set_cells (head :: c0 :: body) g)).
    assert (Hwall := legacy_wall_false g' head Hboard).
    assert (Hself : Legacy.checkSelfCollision g' = false).
    { unfold Legacy.checkSelfCollision, g'. cbn [Legacy.cells Legacy.set_cells].
      apply existsb_cell_false. rewrite <- Hlast.
      apply last_not_in_removelast; [| discriminate].
      rewrite <- Hcells. exact Hnd. }
    rewrite Hwall, Hself. reflexivity.
  - rewrite Hcells, <- Hlast.
    destruct body as [|b body]; [contradiction Hbody; reflexivity |].
    right. change (last (c0 :: b :: body) c0) with (last (b :: body) c0).
    clear. revert b. induction body as [|c body IH]; intros b.
    + left. reflexivity.
    + right. exact (IH c).
Qed.

Lemma legacy_tail_cell_is_free_witness :
  Legacy.update Legacy.square
  = Ok (Legacy.set_cells [mkPoint 2 1; mkPoint 1 1; mkPoint 1 2; mkPoint 2 2]
          Legacy.square)
  /\ In (mkPoint 2 1) (Legacy.cells Legacy.square).
Proof.
  apply (legacy_tail_cell_is_free Legacy.square (mkPoint 1 1)
           [mkPoint 1 2; mkPoint 2 2; mkPoint 2 1] (mkPoint 2 1));
    try reflexivity; try discriminate.
  - repeat constructor; simpl; intuition discriminate.
  - unfold Legacy.on_board, Legacy.gridSize. simpl. lia.
Defined.

Lemma legacy_handleKeyPress_request (key : string) (g : Legacy.Game) :
  Legacy.handleKeyPress key g =
  match request key with
  | Some d => Legacy.set_direction d g
  | None => g
  end.
Proof.
  unfold Legacy.handleKeyPress, request.
  destruct (key =? "ArrowUp")%string;
    [| destruct (key =? "ArrowDown")%string;
       [| destruct (key =? "ArrowLeft")%string;
          [| destruct (key =? "ArrowRight")%string]]];
    reflexivity.
Qed.

Lemma step_opposite (d : Direction) (p : Point) : step (opposite d) (step d p) = p.
Proof. destruct p as [px py]. destruct d; simpl; f_equal; lia. Qed.

(** X16.  [snake.js] takes every arrow key as the new direction.  With
    three cells or more and the second cell right behind the head, pressing
    the arrow against the direction of travel makes the next [update] put
    the head on the second cell: the game is over, with the alert showing
    the score (one more if that cell held the apple), then one cell at
    (3, 1), direction right and score 0. *)
Theorem legacy_reversal_is_fatal
  (g : Legacy.Game) (key : string) (h n m : Point) (rest : list Point) :
  Legacy.cells g = h :: n :: m :: rest ->
  h = step (Legacy.direction g) n ->
  request key = Some (opposite (Legacy.direction g)) ->
  exists g',
    Legacy.update (Legacy.handleKeyPress key g) = Ok g'
    /\ Legacy.cells g' = [mkPoint 3 1]
    /\ Legacy.direction g' = Right
    /\ Legacy.score g' = 0
    /\ exists final older,
         Legacy.log g' = Legacy.ScoreText 0 :: Legacy.Alert final :: older
         /\ (final = Legacy.score g \/ final = Legacy.score g + 1).
Proof.
  intros Hcells Hneck Hreq.
  rewrite legacy_handleKeyPress_request, Hreq.
  unfold Legacy.update.
  cbn [Legacy.cells Legacy.direction Legacy.position Legacy.set_direction].
  rewrite Hcells.
  assert (Hhead : step (opposite (Legacy.direction g)) h = n)
    by (rewrite Hneck; apply step_opposite).
  rewrite Hhead.
  destruct ((x n =? x (Legacy.position g)) && (y n =? y (Legacy.position g))).
  - set (g1 := Legacy.emit _ _).
    assert (Hself : Legacy.checkSelfCollision g1 = true).
    { unfold Legacy.checkSelfCollision, g1.
      cbn [Legacy.cells Legacy.emit Legacy.set_log Legacy.set_score
           Legacy.set_drawn Legacy.set_position Legacy.set_cells].
      apply existsb_cell_true. simpl. tauto. }
    rewrite Hself, !orb_true_r.
    eexists. split; [reflexivity |].
    repeat (split; [reflexivity |]).
    exists (Legacy.score g + 1). eexists. split; [reflexivity | right; reflexivity].
  - set (g1 := Legacy.set_cells _ _).
    assert (Hself : Legacy.checkSelfCollision g1 = true).
    { unfold Legacy.checkSelfCollision, g1.
      cbn [Legacy.cells Legacy.set_cells].
      change (removelast (n :: h :: n :: m :: rest))
        with (n :: h :: n :: removelast (m :: rest)).
      apply existsb_cell_true. simpl. tauto. }
    rewrite Hself, !orb_true_r.
    eexists. split; [reflexivity |].
    repeat (split; [reflexivity |]).
    exists (Legacy.score g). eexists. split; [reflexivity | left; reflexivity].
Qed.

Lemma legacy_reversal_is_fatal_witness :
  exists g',
    Legacy.update (Legacy.handleKeyPress "ArrowLeft" Legacy.straight) = Ok g'
    /\ Legacy.cells g' = [mkPoint 3 1]
    /\ Legacy.direction g' = Right
    /\ Legacy.score g' = 0
    /\ exists final older,
         Legacy.log g' = Legacy.ScoreText 0 :: Legacy.Alert final :: older
         /\ (final = 2 \/ final = 2 + 1).
Proof.
  apply (legacy_reversal_is_fatal Legacy.straight "ArrowLeft"
           (mkPoint 6 1) (mkPoint 5 1) (mkPoint 4 1) []); reflexivity.
Defined.

(** X17.  With exactly two cells the same key press is harmless in
    [snake.js]: if the second cell is on the board and is not the apple, the
    next [update] swaps the two cells and the snake travels the other way. *)
Theorem legacy_two_cells_turn_around
  (g : Legacy.Game) (key : string) (h n : Point) :
  Legacy.cells g = [h; n] ->
  h = step (Legacy.direction g) n ->
  request key = Some (opposite (Legacy.direction g)) ->
  n <> Legacy.position g ->
  Legacy.on_board g n ->
  Legacy.update (Legacy.handleKeyPress key g)
  = Ok (Legacy.set_cells [n; h]
          (Legacy.set_direction (opposite (Legacy.direction g)) g)).
Proof.
  intros Hcells Hneck Hreq Happle Hboard.
  assert (Hhn : h <> n).
  { rewrite Hneck. destruct n as [nx ny].
    destruct (Legacy.direction g); simpl; intros H; injection H; lia. }
  rewrite legacy_handleKeyPress_request, Hreq.
  unfold Legacy.update.
  cbn [Legacy.cells Legacy.direction Legacy.position Legacy.set_direction].
  rewrite Hcells.
  assert (Hhead : step (opposite (Legacy.direction g)) h = n)
    by (rewrite Hneck; apply step_opposite).
  rewrite Hhead.
  assert (Heat : (x n =? x (Legacy.position g))
                 && (y n =? y (Legacy.position g)) = false).
  { destruct ((x n =? x (Legacy.position g))
              && (y n =? y (Legacy.position g))) eqn:E; [| reflexivity].
    exfalso. apply Happle. apply same_cell_eq. exact E. }
  rewrite Heat.
  cbn [Legacy.cells Legacy.set_cells removelast].
  set (g' := Legacy.set_cells [n; h] _).
  assert (Hwall := legacy_wall_false g' n Hboard).
  assert (Hself : Legacy.checkSelfCollision g' = false).
  { unfold Legacy.checkSelfCollision, g'. cbn [Legacy.cells Legacy.set_cells].
    apply existsb_cell_false. intros [H | []]. apply Hhn. exact H. }
  rewrite Hwall, Hself. reflexivity.
Qed.

Lemma legacy_two_cells_turn_around_witness :
  Legacy.update
    (Legacy.handleKeyPress "ArrowLeft"
       (Legacy.set_cells [mkPoint 6 1; mkPoint 5 1] Legacy.straight))
  = Ok (Legacy.set_cells [mkPoint 5 1; mkPoint 6 1]
          (Legacy.set_direction Left
             (Legacy.set_cells [mkPoint 6 1; mkPoint 5 1] Legacy.straight))).
Proof.
  apply (legacy_two_cells_turn_around
           (Legacy.set_cells [mkPoint 6 1; mkPoint 5 1] Legacy.straight)
           "ArrowLeft" (mkPoint 6 1) (mkPoint 5 1));
    try reflexivity; try discriminate.
  unfold Legacy.on_board, Legacy.gridSize. simpl. lia.
Defined.

Lemma existsb_cell_false_inv (head : Point) (others : list Point) :
  existsb (fun c => (x head =? x c) && (y head =? y c)) others = false ->
  ~ In head others.
Proof.
  intros E Hin. rewrite (existsb_cell_true head others Hin) in E. discriminate.
Qed.

Lemma legacy_update_keeps (g : Legacy.Game) :
  Legacy.cells g <> [] ->
  exists g',
    Legacy.update g = Ok g'
    /\ Legacy.pendingTimers g' = Legacy.pendingTimers g
    /\ Legacy.cells g' <> []
    /\ (NoDup (Legacy.cells g) -> NoDup (Legacy.cells g'))
    /\ (Legacy.score g = Z.of_nat (List.length (Legacy.cells g)) - 1 ->
        Legacy.score g' = Z.of_nat (List.length (Legacy.cells g')) - 1).
Proof.
  intros Hne. unfold Legacy.update.
  destruct (Legacy.cells g) as [|c0 body] eqn:Hcells; [contradiction Hne; reflexivity |].
  set (head := step (Legacy.direction g) c0).
  destruct ((x head =? x (Legacy.position g)) && (y head =? y (Legacy.position g))).
  - set (g1 := Legacy.emit _ _).
    destruct ((x head <? 0) || Qle_bool (Legacy.columns g1) (inject_Z (x head))
              || (y head <? 0) || Qle_bool (Legacy.rows g1) (inject_Z (y head))
              || Legacy.checkSelfCollision g1) eqn:Hc.
    + eexists. split; [reflexivity |]. split; [reflexivity |].
      split; [discriminate |]. split; [| reflexivity].
      intros _. constructor; [simpl; tauto | constructor].
    + exists g1. split; [reflexivity |]. split; [reflexivity |].
      apply orb_false_iff in Hc. destruct Hc as [_ Hself].
      unfold Legacy.checkSelfCollision, g1 in Hself.
      cbn [Legacy.cells Legacy.emit Legacy.set_log Legacy.set_score
           Legacy.set_drawn Legacy.set_position Legacy.set_cells] in Hself.
      apply existsb_cell_false_inv in Hself.
      unfold g1.
      cbn [Legacy.cells Legacy.score Legacy.emit Legacy.set_log Legacy.set_score
           Legacy.set_drawn Legacy.set_position Legacy.set_cells].
      split; [discriminate |]. split.
      * intros Hnd. constructor; assumption.
      * intros Hs. rewrite Hs. cbn [List.length]. lia.
  - set (g1 := Legacy.set_cells _ _).
    assert (Hg1 : Legacy.cells g1 = head :: removelast (c0 :: body)).
    { reflexivity. }
    destruct ((x head <? 0) || Qle_bool (Legacy.columns g1) (inject_Z (x head))
              || (y head <? 0) || Qle_bool (Legacy.rows g1) (inject_Z (y head))
              || Legacy.checkSelfCollision g1) eqn:Hc.
    + eexists. split; [reflexivity |]. split; [reflexivity |].
      split; [discriminate |]. split; [| reflexivity].
      intros _. constructor; [simpl; tauto | constructor].
    + exists g1. split; [reflexivity |]. split; [reflexivity |].
      apply orb_false_iff in Hc. destruct Hc as [_ Hself].
      unfold Legacy.checkSelfCollision in Hself. rewrite Hg1 in Hself.
      apply existsb_cell_false_inv in Hself.
      rewrite Hg1. split; [discriminate |]. split.
      * intros Hnd. constructor; [exact Hself | apply NoDup_removelast; exact Hnd].
      * intros Hs. change (Legacy.score g1) with (Legacy.score g). rewrite Hs.
        change (head :: removelast (c0 :: body))
          with (removelast (head :: c0 :: body)).
        rewrite length_removelast_cons. reflexivity.
Qed.

(** X18.  In every state [snake.js] can reach, the snake has a cell and no
    cell twice, the score is its length minus one, and exactly one timer is
    pending: the loop of the first version never doubles. *)
Theorem legacy_invariants (g : Legacy.Game) :
  Legacy.reachable g ->
  Legacy.cells g <> []
  /\ NoDup (Legacy.cells g)
  /\ Legacy.score g = Z.of_nat (List.length (Legacy.cells g)) - 1
  /\ Legacy.pendingTimers g = 1%nat.
Proof.
  assert (Hloop : forall u g',
            Legacy.cells u <> [] /\ NoDup (Legacy.cells u)
            /\ Legacy.score u = Z.of_nat (List.length (Legacy.cells u)) - 1 ->
            Legacy.gameLoop u = Ok g' ->
            (Legacy.cells g' <> [] /\ NoDup (Legacy.cells g')
             /\ Legacy.score g' = Z.of_nat (List.length (Legacy.cells g')) - 1)
            /\ Legacy.pendingTimers g' = S (Legacy.pendingTimers u)).
  { intros u g' [Hne [Hnd Hs]] H. unfold Legacy.gameLoop in H.
    destruct (legacy_update_keeps u Hne) as [v [Hup [Ht [Hne' [Hnd' Hs']]]]].
    rewrite Hup in H. injection H as <-.
    cbn [Legacy.cells Legacy.score Legacy.pendingTimers Legacy.set_pendingTimers
         Legacy.draw Legacy.emit Legacy.set_log].
    rewrite Ht. split; [| reflexivity].
    split; [exact Hne' |]. split; [exact (Hnd' Hnd) | exact (Hs' Hs)]. }
  induction 1 as [width height draws g Hload | key g _ IH | g g' _ IH Hfire].
  - destruct (Hloop (Legacy.initial width height draws) g) as [[Hne [Hnd Hs]] Ht];
      [| exact Hload |].
    + split; [discriminate |]. split; [| reflexivity].
      constructor; [simpl; tauto | constructor].
    + repeat split; assumption.
  - rewrite legacy_handleKeyPress_request.
    destruct (request key); exact IH.
  - destruct IH as [Hne [Hnd [Hs Ht]]].
    unfold Legacy.timeout in Hfire. rewrite Ht in Hfire.
    destruct (Hloop (Legacy.set_pendingTimers 0%nat g) g') as [[Hne' [Hnd' Hs']] Ht'];
      [| exact Hfire |].
    + repeat split; assumption.
    + repeat split; assumption.
Qed.

Lemma legacy_invariants_witness :
  NoDup (Legacy.cells (returned_legacy (Legacy.load 400 400 (fun _ => 1#2))))
  /\ Legacy.pendingTimers (returned_legacy (Legacy.load 400 400 (fun _ => 1#2))) = 1%nat.
Proof.
  destruct (legacy_invariants
              (returned_legacy (Legacy.load 400 400 (fun _ => 1#2))))
    as [_ [Hnd [_ Ht]]].
  - apply (Legacy.reach_load 400 400 (fun _ => 1#2)). reflexivity.
  - split; [exact Hnd | exact Ht].
Defined.

(** ** A game over, start to end *)

Lemma game_over_alert (depth : nat) (v w' : World) :
  handleGameOver depth v = Ok w' ->
  In (Alert (score v) (Z.max (score v) (highScore v))) (log w').
Proof.
  intros H. unfold handleGameOver in H. rewrite handleGameOver_with_bind in H.
  apply bind_Ok_inv in H. destruct H as [w1 [Hover Hloop]].
  apply log_gameLoop in Hloop. destruct Hloop as [l Hl].
  apply handleGameOver_with_fresh in Hover.
  rewrite Hl, (fresh_log _ _ Hover). apply in_or_app. right. right.
  unfold recorded.
  destruct (score v >? highScore v) eqn:Hgt.
  - apply Z.gtb_lt in Hgt. rewrite Z.max_l by lia. left. reflexivity.
  - rewrite Z.gtb_ltb in Hgt. apply Z.ltb_ge in Hgt.
    rewrite Z.max_r by lia. left. reflexivity.
Qed.

(** The nested first tick of the new session, when the apple is not in
    front of the snake. *)
Lemma handleGameOver_moves_on
  (depth : nat) (w : World) (p : Point) (rest : list Q) :
  on_board w (mkPoint 4 1) ->
  placeApple_loop [mkPoint 3 1] (random w) (columns w) (rows w) = Ok (p, rest) ->
  p <> mkPoint 4 1 ->
  exists w',
    handleGameOver (S depth) w = Ok w'
    /\ snake w' = [mkPoint 4 1]
    /\ apple w' = p
    /\ direction w' = Right
    /\ score w' = 0
    /\ speed w' = CONFIG.initialSpeed
    /\ highScore w' = Z.max (score w) (highScore w)
    /\ random w' = rest.
Proof.
  intros Hboard Hloop Hp.
  destruct (handleGameOver_with_returns w p rest Hloop) as [w1 [Hover [Ha Hr]]].
  pose proof (handleGameOver_with_fresh _ _ Hover) as F.
  destruct (handleGameOver_with_board _ _ Hover) as [Hcw [Hch _]].
  destruct (highScore_over _ _ Hover) as [Hhs _].
  assert (Hpro : prospective w1 = Some (mkPoint 4 1)).
  { unfold prospective.
    rewrite (fresh_snake _ _ F), (fresh_nextDirection _ _ F). reflexivity. }
  assert (Hc : collision (mkPoint 4 1) (commit w1) = false).
  { apply collision_false_on_board. split.
    - apply (on_board_same_canvas w (commit w1)); [exact Hcw | exact Hch | exact Hboard].
    - change (snake (commit w1)) with (snake w1). rewrite (fresh_snake _ _ F).
      simpl. intros [H | []]. discriminate. }
  assert (Heat : (x (mkPoint 4 1) =? x (apple w1))
                 && (y (mkPoint 4 1) =? y (apple w1)) = false).
  { destruct ((x (mkPoint 4 1) =? x (apple w1))
              && (y (mkPoint 4 1) =? y (apple w1))) eqn:E; [| reflexivity].
    exfalso. apply Hp. apply same_cell_eq in E. rewrite <- Ha. symmetry. exact E. }
  exists (rearm (draw (set_snake (removelast (mkPoint 4 1 :: snake w1)) (commit w1)))).
  split.
  { unfold handleGameOver. rewrite handleGameOver_with_bind, Hover.
    cbn [bind gameLoop]. rewrite update_with_eq, Hpro, Hc, Heat. reflexivity. }
  cbn [snake apple direction score speed highScore random rearm draw emit set_log
       setTimeout set_gameLoopTimeout set_nextHandle set_timers set_snake commit
       set_direction].
  rewrite (fresh_snake _ _ F), (fresh_nextDirection _ _ F), (fresh_score _ _ F),
    (fresh_speed _ _ F), Hhs, Ha, Hr.
  repeat (split; [reflexivity |]).
  split; [| reflexivity].
  destruct (score w >? highScore w) eqn:Hgt.
  - apply Z.gtb_lt in Hgt. lia.
  - rewrite Z.gtb_ltb in Hgt. apply Z.ltb_ge in Hgt. lia.
Qed.

(** The nested first tick of the new session, when the apple is right in
    front of the snake: the tick eats it and places the next one. *)
Lemma handleGameOver_first_bite
  (depth : nat) (w : World) (rest : list Q) :
  on_board w (mkPoint 4 1) ->
  placeApple_loop [mkPoint 3 1] (random w) (columns w) (rows w)
  = Ok (mkPoint 4 1, rest) ->
  match placeApple_loop [mkPoint 4 1; mkPoint 3 1] rest (columns w) (rows w) with
  | Ok (p2, rest2) =>
      exists w',
        handleGameOver (S depth) w = Ok w'
        /\ snake w' = [mkPoint 4 1; mkPoint 3 1]
        /\ apple w' = p2
        /\ direction w' = Right
        /\ score w' = 1
        /\ speed w' = CONFIG.initialSpeed - CONFIG.speedDecrement
        /\ highScore w' = Z.max (score w) (highScore w)
        /\ random w' = rest2
  | NoHead => handleGameOver (S depth) w = NoHead
  | Unfinished => handleGameOver (S depth) w = Unfinished
  end.
Proof.
  intros Hboard Hloop.
  destruct (handleGameOver_with_returns w _ rest Hloop) as [w1 [Hover [Ha Hr]]].
  pose proof (handleGameOver_with_fresh _ _ Hover) as F.
  destruct (handleGameOver_with_board _ _ Hover) as [Hcw [Hch _]].
  destruct (highScore_over _ _ Hover) as [Hhs _].
  assert (Hpro : prospective w1 = Some (mkPoint 4 1)).
  { unfold prospective.
    rewrite (fresh_snake _ _ F), (fresh_nextDirection _ _ F). reflexivity. }
  assert (Hc : collision (mkPoint 4 1) (commit w1) = false).
  { apply collision_false_on_board. split.
    - apply (on_board_same_canvas w (commit w1)); [exact Hcw | exact Hch | exact Hboard].
    - change (snake (commit w1)) with (snake w1). rewrite (fresh_snake _ _ F).
      simpl. intros [H | []]. discriminate. }
  assert (Heat : (x (mkPoint 4 1) =? x (apple w1))
                 && (y (mkPoint 4 1) =? y (apple w1)) = true).
  { rewrite Ha. reflexivity. }
  set (v := updateScoreDisplay
              (set_score (score w1 + 1)
                 (set_snake (mkPoint 4 1 :: snake w1) (commit w1)))).
  assert (Hrun : handleGameOver (S depth) w
                 = (u <- (v1 <- placeApple v ;; Ok (increaseDifficulty v1)) ;;
                    Ok (rearm (draw u)))).
  { unfold handleGameOver. rewrite handleGameOver_with_bind, Hover.
    cbn [bind gameLoop]. rewrite update_with_eq, Hpro, Hc, Heat. reflexivity. }
  assert (Hplace : placeApple v
                   = (pr <- placeApple_loop [mkPoint 4 1; mkPoint 3 1] rest
                              (columns w) (rows w) ;;
                      Ok (set_random (snd pr) (set_apple (fst pr) v)))).
  { unfold placeApple.
    assert (Es : snake v = [mkPoint 4 1; mkPoint 3 1]).
    { unfold v. cbn [snake updateScoreDisplay emit set_log set_score set_snake].
      rewrite (fresh_snake _ _ F). reflexivity. }
    assert (Ec : columns v = columns w).
    { unfold columns, v.
      cbn [canvasWidth updateScoreDisplay emit set_log set_score set_snake commit
           set_direction].
      rewrite Hcw. reflexivity. }
    assert (Er : rows v = rows w).
    { unfold rows, v.
      cbn [canvasHeight updateScoreDisplay emit set_log set_score set_snake commit
           set_direction].
      rewrite Hch. reflexivity. }
    rewrite Es, Ec, Er.
    change (random v) with (random w1). rewrite Hr. reflexivity. }
  rewrite Hrun, Hplace.
  destruct (placeApple_loop [mkPoint 4 1; mkPoint 3 1] rest (columns w) (rows w))
    as [[p2 rest2]| |]; [| reflexivity | reflexivity].
  cbn [bind fst snd]. eexists. split; [reflexivity |].
  unfold increaseDifficulty.
  assert (Hfast : (speed (set_random rest2 (set_apple p2 v)) >? CONFIG.minSpeed) = true).
  { unfold v.
    cbn [speed set_random set_apple updateScoreDisplay emit set_log set_score
         set_snake commit set_direction].
    rewrite (fresh_speed _ _ F). reflexivity. }
  rewrite Hfast. unfold v.
  cbn [snake apple direction score speed highScore random rearm draw emit set_log
       setTimeout set_gameLoopTimeout set_nextHandle set_timers set_speed
       set_random set_apple updateScoreDisplay set_score set_snake commit
       set_direction].
  rewrite (fresh_snake _ _ F), (fresh_nextDirection _ _ F), (fresh_score _ _ F),
    (fresh_speed _ _ F), Hhs.
  repeat (split; [reflexivity |]).
  split; [| reflexivity].
  destruct (score w >? highScore w) eqn:Hgt.
  - apply Z.gtb_lt in Hgt. lia.
  - rewrite Z.gtb_ltb in Hgt. apply Z.ltb_ge in Hgt. lia.
Qed.

(** X19.  On a board that has the cell (4, 1), once [placeApple] has found
    a cell [p] off (3, 1), what a game over does next depends on [p].  If
    [p] is not (4, 1), [handleGameOver] returns: one cell, already moved to
    (4, 1), heading right, score 0, speed 200, the apple on [p].  If [p] is
    (4, 1), the first tick of the new session eats it, and
    [handleGameOver] returns exactly when a second placement, from the
    draws left, finds a cell off (4, 1) and (3, 1): two cells, score 1,
    speed 195, the apple on that cell.  Either way the high score is the
    larger of the old one and the score just ended. *)
Theorem game_over_restarts
  (depth : nat) (w : World) (p : Point) (rest : list Q) :
  on_board w (mkPoint 4 1) ->
  placeApple_loop [mkPoint 3 1] (random w) (columns w) (rows w) = Ok (p, rest) ->
  (p <> mkPoint 4 1 ->
   exists w',
     handleGameOver (S depth) w = Ok w'
     /\ snake w' = [mkPoint 4 1]
     /\ apple w' = p
     /\ direction w' = Right
     /\ score w' = 0
     /\ speed w' = CONFIG.initialSpeed
     /\ highScore w' = Z.max (score w) (highScore w)
     /\ random w' = rest)
  /\ (p = mkPoint 4 1 ->
      match placeApple_loop [mkPoint 4 1; mkPoint 3 1] rest (columns w) (rows w) with
      | Ok (p2, rest2) =>
          exists w',
            handleGameOver (S depth) w = Ok w'
            /\ snake w' = [mkPoint 4 1; mkPoint 3 1]
            /\ apple w' = p2
            /\ direction w' = Right
            /\ score w' = 1
            /\ speed w' = CONFIG.initialSpeed - CONFIG.speedDecrement
            /\ highScore w' = Z.max (score w) (highScore w)
            /\ random w' = rest2
      | NoHead => handleGameOver (S depth) w = NoHead
      | Unfinished => handleGameOver (S depth) w = Unfinished
      end).
Proof.
  intros Hboard Hloop. split.
  - intros Hp. exact (handleGameOver_moves_on depth w p rest Hboard Hloop Hp).
  - intros ->. exact (handleGameOver_first_bite depth w rest Hboard Hloop).
Qed.

(** The coiled snake dies with score 7 against a high score of 5.  With the
    draws 0.25, 0.75 the next apple is on (5, 15) and the game is back with
    one cell; with the draws 0.2, 0.0625, 0.5, 0.5 the apple is first on
    (4, 1), is eaten at once, and the game is back with two cells, score 1
    and the apple on (10, 10); with the draws 0.2, 0.0625 alone the second
    placement has nothing to draw. *)
Lemma game_over_restarts_witness :
  (exists w',
     handleGameOver 1 (commit coiled) = Ok w'
     /\ snake w' = [mkPoint 4 1]
     /\ apple w' = mkPoint 5 15
     /\ direction w' = Right
     /\ score w' = 0
     /\ speed w' = 200
     /\ highScore w' = Z.max 7 5
     /\ random w' = [])
  /\ (exists w',
        handleGameOver 1 (set_random [1#5; 1#16; 1#2; 1#2] (commit coiled)) = Ok w'
        /\ snake w' = [mkPoint 4 1; mkPoint 3 1]
        /\ apple w' = mkPoint 10 10
        /\ direction w' = Right
        /\ score w' = 1
        /\ speed w' = 200 - 5
        /\ highScore w' = Z.max 7 5
        /\ random w' = [])
  /\ handleGameOver 1 (set_random [1#5; 1#16] (commit coiled)) = Unfinished.
Proof.
  assert (Hb : forall draws,
            on_board (set_random draws (commit coiled)) (mkPoint 4 1)).
  { intros draws. unfold on_board, CONFIG.gridSize. simpl. lia. }
  split; [| split].
  - refine (proj1 (game_over_restarts 0 (commit coiled) (mkPoint 5 15) [] _ _) _).
    + unfold on_board, CONFIG.gridSize. simpl. lia.
    + vm_compute. reflexivity.
    + discriminate.
  - exact (proj2 (game_over_restarts 0 (set_random [1#5; 1#16; 1#2; 1#2] (commit coiled))
                    (mkPoint 4 1) [1#2; 1#2] (Hb _) eq_refl) eq_refl).
  - exact (proj2 (game_over_restarts 0 (set_random [1#5; 1#16] (commit coiled))
                    (mkPoint 4 1) [] (Hb _) eq_refl) eq_refl).
Defined.

(** ** The self-collision rule *)

(** C1.  The self-collision test of a tick compares the prospective head
    with the body as it stands when the tick starts, tail cell included: the
    test answers true exactly when the prospective head is one of those
    cells, whatever the apple would have done to the tail.  The tick is then
    fatal: [update] runs [handleGameOver] on the state of the start of the
    tick, every run of it that returns has shown the game-over alert with
    the score of that state, and on a board that has the cell (4, 1) it does
    return, as soon as [placeApple] finds a cell off (3, 1) other than
    (4, 1), with the snake gone and a new session begun: one cell at
    (4, 1), score 0, speed back to [initialSpeed]. *)
Theorem self_collision_on_whole_body (depth : nat) (w : World) (head : Point) :
  prospective w = Some head ->
  (checkSelfCollision head (commit w) = true <-> In head (snake w))
  /\ (In head (snake w) ->
      collision head (commit w) = true
      /\ update depth w = handleGameOver depth (commit w)
      /\ (forall w', update depth w = Ok w' ->
           In (Alert (score w) (Z.max (score w) (highScore w))) (log w'))
      /\ (forall p rest,
           on_board w (mkPoint 4 1) ->
           placeApple_loop [mkPoint 3 1] (random w) (columns w) (rows w)
           = Ok (p, rest) ->
           p <> mkPoint 4 1 ->
           exists w',
             update (S depth) w = Ok w'
             /\ snake w' = [mkPoint 4 1]
             /\ apple w' = p
             /\ score w' = 0
             /\ speed w' = CONFIG.initialSpeed
             /\ In (Alert (score w) (Z.max (score w) (highScore w))) (log w'))).
Proof.
  intros Hp. split.
  - apply (checkSelfCollision_In head (commit w)).
  - intros Hin.
    assert (Hc : collision head (commit w) = true)
      by exact (collision_of_In head (commit w) Hin).
    assert (Hup : forall d, update d w = handleGameOver d (commit w)).
    { intros d. unfold update, handleGameOver.
      rewrite update_with_eq, Hp, Hc. reflexivity. }
    split; [exact Hc |]. split; [exact (Hup depth) |]. split.
    + intros w' Hw'. rewrite Hup in Hw'.
      exact (game_over_alert depth (commit w) w' Hw').
    + intros p rest Hboard Hloop Hne.
      destruct (handleGameOver_moves_on depth (commit w) p rest Hboard Hloop Hne)
        as [w' [Hrun [Hs [Ha [_ [Hsc [Hsp _]]]]]]].
      exists w'. rewrite Hup.
      split; [exact Hrun |]. split; [exact Hs |]. split; [exact Ha |].
      split; [exact Hsc |]. split; [exact Hsp |].
      exact (game_over_alert (S depth) (commit w) w' Hrun).
Qed.

(** On the coiled snake the prospective head (2, 1) is the tail cell and the
    apple is elsewhere; the tick returns with the alert shown and a new
    one-cell snake. *)
Lemma self_collision_on_whole_body_witness :
  prospective coiled = Some (mkPoint 2 1)
  /\ last (snake coiled) (mkPoint 0 0) = mkPoint 2 1
  /\ mkPoint 2 1 <> apple coiled
  /\ checkSelfCollision (mkPoint 2 1) (commit coiled) = true
  /\ exists w',
       update 1 coiled = Ok w'
       /\ snake w' = [mkPoint 4 1]
       /\ apple w' = mkPoint 5 15
       /\ score w' = 0
       /\ speed w' = 200
       /\ In (Alert 7 7) (log w').
Proof.
  assert (Hp : prospective coiled = Some (mkPoint 2 1)) by reflexivity.
  assert (Hin : In (mkPoint 2 1) (snake coiled)) by (simpl; tauto).
  destruct (self_collision_on_whole_body 0 coiled (mkPoint 2 1) Hp) as [Hiff Hover].
  destruct (Hover Hin) as [_ [_ [_ Hret]]].
  split; [exact Hp |].
  split; [reflexivity |].
  split; [discriminate |].
  split; [apply Hiff; exact Hin |].
  apply (Hret (mkPoint 5 15) []).
  - unfold on_board, CONFIG.gridSize. simpl. lia.
  - vm_compute. reflexivity.
  - discriminate.
Defined.
